(** * simplemod: the append-only buffer log behind /proc/simple

    A shallow embedding of [simple_context.c] and [simple_driver.c].

    The kernel services the module calls (the slab allocator, the user-copy
    primitive, the mutex, procfs and the seq_file helper) are modelled as
    small operations on an explicit kernel state; every one of them leaves an
    event in a trace, so that call order and lock discipline can be stated.
    The functions of the module itself are transcribed statement by
    statement on top of these operations. *)

From Stdlib Require Import ZArith Lia List.
From Stdlib Require Import Strings.Byte Strings.String.
From stdpp Require Import base option list gmap strings.

Open Scope Z_scope.

(** * Part I: the model *)

(* ===================================================================== *)
(** ** Machine integers (LP64) *)
(* ===================================================================== *)

Module Int.

(** [size_t]: unsigned 64-bit. *)
Definition SIZE_MAX : Z := 2 ^ 64 - 1.
(** [ssize_t] and [loff_t]: signed 64-bit. *)
Definition SSIZE_MAX : Z := 2 ^ 63 - 1.

(** Conversion to [size_t] (reduction modulo 2^64). *)
Definition to_size_t (z : Z) : Z := z mod 2 ^ 64.

(** Conversion to [ssize_t] (two's complement). *)
Definition to_ssize_t (z : Z) : Z := (z + 2 ^ 63) mod 2 ^ 64 - 2 ^ 63.

(** Conversion to [loff_t] (two's complement, same width). *)
Definition to_loff_t (z : Z) : Z := (z + 2 ^ 63) mod 2 ^ 64 - 2 ^ 63.

Definition EFAULT : Z := 14.
Definition ENOMEM : Z := 12.

End Int.
Export Int.

(* ===================================================================== *)
(** ** Data model *)
(* ===================================================================== *)

(** Slab addresses. [NULL] is [None] wherever a pointer may be null. *)
Abbreviation addr := nat.

(** [struct simple_buffer_entry]. The [node] member is represented by the
    position of the entry's address in the list of the context; [buf] is the
    flexible array, as long as the allocation made room for. *)
Record simple_buffer_entry := BufferEntry {
  len : Z;
  buf : list byte;
}.

(** [offsetof(struct simple_buffer_entry, buf)]: a [list_head] (two
    pointers) and a [size_t]. *)
Definition sizeof_entry : Z := 24.

(** [struct_size(entry, buf, len)]: header plus [len] bytes, saturating at
    [SIZE_MAX] on overflow. *)
Definition struct_size (n : Z) : Z :=
  if SIZE_MAX <? sizeof_entry + n then SIZE_MAX else sizeof_entry + n.

(** [struct simple_context]: the procfs handle and the buffer list with its
    mutex. The list holds the addresses of its entries in list order. *)
Record simple_context := Context {
  proc_entry : option string;
  buf_list_head : list addr;
  buf_list_lock : bool;
}.

(** What [kfree] may be handed. *)
Inductive pointer :=
| PEntry (a : addr)
| PCtx.

(** Where the context object lives. *)
Inductive storage := StaticStorage | SlabStorage.

(** Calls that are observable from outside the module's functions. *)
Inductive event :=
| EvInit (i : nat)                      (* g_ctx_init[i].init(ctx) *)
| EvTerm (i : nat)                      (* g_ctx_init[i].term(ctx) *)
| EvKzalloc (size : Z) (p : option addr)
| EvKfree (p : pointer)
| EvCopyFromUser (n : Z) (not_copied : Z)
| EvMutexInit
| EvMutexLock
| EvMutexUnlock
| EvMutexDestroy
| EvListAddTail (a : addr)
| EvSeqWrite (n : Z)
| EvCopyToUser (n : Z)
| EvSeqOpen
| EvSeqRelease
| EvProcCreate (name : string) (ok : bool)
| EvProcRemove (de : option string).

(** The kernel state the module runs against. *)
Record kernel := Kernel {
  ctx : simple_context;
  ctx_storage : storage;
  ctx_freed : bool;                       (* kfree(ctx) has been called *)
  slab : gmap addr (Z * simple_buffer_entry);  (* live objects: bytes asked for, contents *)
  procfs : list string;                   (* nodes at the root of procfs *)
  trace : list event;                     (* oldest event first *)
}.

Definition set_ctx (f : simple_context -> simple_context) (k : kernel) : kernel :=
  Kernel (f (ctx k)) (ctx_storage k) (ctx_freed k) (slab k) (procfs k) (trace k).
Definition set_ctx_freed (b : bool) (k : kernel) : kernel :=
  Kernel (ctx k) (ctx_storage k) b (slab k) (procfs k) (trace k).
Definition set_slab (f : gmap addr (Z * simple_buffer_entry) -> gmap addr (Z * simple_buffer_entry))
    (k : kernel) : kernel :=
  Kernel (ctx k) (ctx_storage k) (ctx_freed k) (f (slab k)) (procfs k) (trace k).
Definition set_procfs (f : list string -> list string) (k : kernel) : kernel :=
  Kernel (ctx k) (ctx_storage k) (ctx_freed k) (slab k) (f (procfs k)) (trace k).
Definition log_event (e : event) (k : kernel) : kernel :=
  Kernel (ctx k) (ctx_storage k) (ctx_freed k) (slab k) (procfs k) (trace k ++ [e]).

Definition set_proc_entry (p : option string) (c : simple_context) : simple_context :=
  Context p (buf_list_head c) (buf_list_lock c).
Definition set_head (l : list addr) (c : simple_context) : simple_context :=
  Context (proc_entry c) l (buf_list_lock c).
Definition set_lock (b : bool) (c : simple_context) : simple_context :=
  Context (proc_entry c) (buf_list_head c) b.

(** Total bytes of slab memory held by buffer entries. *)
Definition entry_memory (k : kernel) : Z :=
  map_fold (fun _ (o : Z * simple_buffer_entry) acc => fst o + acc) 0 (slab k).

(* ===================================================================== *)
(** ** The monad of kernel code *)
(* ===================================================================== *)

(** A computation threads the kernel state. It yields [None] when the
    calling thread cannot go on: it sleeps for ever on a mutex it holds
    itself, or it touches memory that is not live. *)
Definition M (A : Type) : Type := kernel -> option (A * kernel).

#[global] Instance M_ret : MRet M := fun A (a : A) k => Some (a, k).
#[global] Instance M_bind : MBind M := fun A B (f : A -> M B) (m : M A) k =>
  match m k with
  | Some (a, k') => f a k'
  | None => None
  end.

Definition get : M kernel := fun k => Some (k, k).
Definition modify (f : kernel -> kernel) : M unit := fun k => Some (tt, f k).
Definition stuck {A} : M A := fun _ => None.
Definition emit (e : event) : M unit := modify (log_event e).

(* ===================================================================== *)
(** ** Kernel services used by the module *)
(* ===================================================================== *)

(** The largest request the slab allocator serves ([1 << 22] with 4 KiB
    pages); anything larger is refused whatever the memory pressure. *)
Definition KMALLOC_MAX_SIZE : Z := 2 ^ 22.

(** [kzalloc(size, GFP_KERNEL)], seen as the allocation of a buffer entry:
    [size] zeroed bytes, of which those past the header form [buf].
    [mem_ok] is the allocator's answer for a request it could serve. *)
Definition kzalloc (mem_ok : bool) (size : Z) : M (option addr) :=
  k ← get;
  if mem_ok && (size <=? KMALLOC_MAX_SIZE) then
    let a := fresh (dom (slab k)) in
    let zeroed := BufferEntry 0 (replicate (Z.to_nat (size - sizeof_entry)) x00) in
    modify (set_slab (insert a (size, zeroed)));;
    emit (EvKzalloc size (Some a));;
    mret (Some a)
  else
    emit (EvKzalloc size None);;
    mret None.

(** [kfree(p)]. Freeing an entry that is not live has no defined outcome. *)
Definition kfree (p : pointer) : M unit :=
  match p with
  | PEntry a =>
      k ← get;
      match slab k !! a with
      | Some _ => modify (set_slab (delete a));; emit (EvKfree p)
      | None => stuck
      end
  | PCtx => modify (set_ctx_freed true);; emit (EvKfree p)
  end.

(** [copy_from_user(entry->buf, user_buf, n)]. The user buffer is given by
    the bytes that can be read at the user pointer: the copy transfers the
    first [n] of them, or all of them when there are fewer, and returns the
    number of bytes it could not transfer. *)
Definition copy_from_user (dst : addr) (user_buf : list byte) (n : Z) : M Z :=
  k ← get;
  match slab k !! dst with
  | Some (sz, e) =>
      let copied := Z.to_nat (Z.min n (Z.of_nat (length user_buf))) in
      let not_copied := n - Z.of_nat copied in
      modify (set_slab (insert dst
        (sz, BufferEntry (len e) (take copied user_buf ++ drop copied (buf e)))));;
      emit (EvCopyFromUser n not_copied);;
      mret not_copied
  | None => stuck
  end.

(** [entry->len = v]. *)
Definition store_len (dst : addr) (v : Z) : M unit :=
  k ← get;
  match slab k !! dst with
  | Some (sz, e) => modify (set_slab (insert dst (sz, BufferEntry v (buf e))))
  | None => stuck
  end.

(** [list_entry(v, struct simple_buffer_entry, node)] followed by a read. *)
Definition load_entry (a : addr) : M simple_buffer_entry :=
  k ← get;
  match slab k !! a with
  | Some (_, e) => mret e
  | None => stuck
  end.

Definition mutex_init : M unit :=
  modify (set_ctx (set_lock false));; emit EvMutexInit.

Definition mutex_lock : M unit :=
  k ← get;
  if buf_list_lock (ctx k) then stuck
  else modify (set_ctx (set_lock true));; emit EvMutexLock.

Definition mutex_unlock : M unit :=
  k ← get;
  if buf_list_lock (ctx k) then modify (set_ctx (set_lock false));; emit EvMutexUnlock
  else stuck.

Definition mutex_destroy : M unit := emit EvMutexDestroy.

(** [INIT_LIST_HEAD(&ctx->buf_list.head)]. *)
Definition INIT_LIST_HEAD : M unit := modify (set_ctx (set_head [])).

(** [list_add_tail(&entry->node, &ctx->buf_list.head)]. *)
Definition list_add_tail (a : addr) : M unit :=
  modify (set_ctx (fun c => set_head (buf_list_head c ++ [a]) c));;
  emit (EvListAddTail a).

(** [proc_create_data(name, mode, NULL, &proc_ops, ctx)]: [proc_ok] is the
    answer of procfs for a name that is still free. *)
Definition proc_create_data (proc_ok : bool) (name : string) : M (option string) :=
  k ← get;
  if proc_ok && bool_decide (name ∉ procfs k) then
    modify (set_procfs (fun l => l ++ [name]));;
    emit (EvProcCreate name true);;
    mret (Some name)
  else
    emit (EvProcCreate name false);;
    mret None.

(** [proc_remove(de)]; a null [de] is accepted and ignored. *)
Definition proc_remove (de : option string) : M unit :=
  match de with
  | Some name => modify (set_procfs (filter (fun x => x ≠ name)))
  | None => mret tt
  end;;
  emit (EvProcRemove de).

(** [struct seq_file]: a buffer of [size] bytes of which [count] are in
    use; [count = size] marks an overflow. *)
Record seq_file := SeqFile {
  size : Z;
  count : Z;
  sbuf : list byte;
}.

(** [seq_write(seq, data, n)]. *)
Definition seq_write (m : seq_file) (data : list byte) (n : Z) : seq_file * Z :=
  if count m + n <? size m then
    (SeqFile (size m) (count m + n) (sbuf m ++ take (Z.to_nat n) data), 0)
  else
    (SeqFile (size m) (size m) (sbuf m), -1).

Definition seq_has_overflowed (m : seq_file) : bool := count m =? size m.

(** A [struct list_head *] that points into the buffer list is represented
    by the part of the list that starts at the node pointed to; the null
    pointer by [None]. *)
Abbreviation cursor := (option (list addr)).

(** [seq_list_start(head, pos)]. *)
Definition seq_list_start (head : list addr) (pos : Z) : cursor :=
  if pos <? 0 then None
  else match drop (Z.to_nat pos) head with
       | [] => None
       | v => Some v
       end.

(** [seq_list_next(v, head, ppos)]: the successor of [v], and [*ppos + 1]. *)
Definition seq_list_next (v : list addr) (pos : Z) : cursor * Z :=
  (match tail v with [] => None | lh => Some lh end, to_loff_t (pos + 1)).

(* ===================================================================== *)
(** ** simple_context.c: the pseudo-file *)
(* ===================================================================== *)

(** [simple_context_seq_start]: take the list mutex, then look up the node
    at index [pos]. *)
Definition simple_context_seq_start (pos : Z) : M cursor :=
  mutex_lock;;
  k ← get;
  mret (seq_list_start (buf_list_head (ctx k)) pos).

(** [simple_context_seq_next]. *)
Definition simple_context_seq_next (v : list addr) (pos : Z) : M (cursor * Z) :=
  mret (seq_list_next v pos).

(** [simple_context_seq_stop]. *)
Definition simple_context_seq_stop : M unit :=
  mutex_unlock.

(** [simple_context_seq_show]: the entry's [len] bytes of [buf] go to the
    seq_file; the result of [seq_write] is dropped and 0 is returned. *)
Definition simple_context_seq_show (m : seq_file) (v : list addr) : M (seq_file * Z) :=
  match v with
  | a :: _ =>
      entry ← load_entry a;
      emit (EvSeqWrite (len entry));;
      mret (fst (seq_write m (buf entry) (len entry)), 0)
  | [] => stuck
  end.

(** [simple_context_proc_open]: [seq_open(file, &seq_ops)], which needs
    memory for the [seq_file]. *)
Definition simple_context_proc_open (mem_ok : bool) : M Z :=
  if mem_ok then emit EvSeqOpen;; mret 0 else mret (- ENOMEM).

(** The [proc_release] hook is [seq_release]. *)
Definition seq_release : M Z :=
  emit EvSeqRelease;; mret 0.

(** [simple_context_proc_write(file, user_buf, len, pos)]: the value
    returned and the new [*pos]. *)
Definition simple_context_proc_write (mem_ok : bool) (user_buf : list byte)
    (len : Z) (pos : Z) : M (Z * Z) :=
  entry ← kzalloc mem_ok (struct_size len);
  match entry with
  | None => mret (0, pos)
  | Some entry =>
      (* Copy the buffer over and track bytes written *)
      not_copied ← copy_from_user entry user_buf len;
      let written := to_ssize_t (to_size_t (len - not_copied)) in
      store_len entry (to_size_t written);;
      if written =? 0 then
        kfree (PEntry entry);;
        mret (- EFAULT, pos)
      else
        mutex_lock;;
        list_add_tail entry;;
        mutex_unlock;;
        mret (written, to_loff_t (pos + written))
  end.

(** [simple_context_procfs_init]. *)
Definition simple_context_procfs_init (proc_ok : bool) : M Z :=
  de ← proc_create_data proc_ok "simple";
  modify (set_ctx (set_proc_entry de));;
  match de with
  | None => mret (- ENOMEM)
  | Some _ => mret 0
  end.

(** [simple_context_procfs_term]. *)
Definition simple_context_procfs_term : M unit :=
  k ← get;
  proc_remove (proc_entry (ctx k)).

(** [simple_context_buffer_list_init]. *)
Definition simple_context_buffer_list_init : M Z :=
  INIT_LIST_HEAD;;
  mutex_init;;
  mret 0.

(** The body of [list_for_each_safe] in [simple_context_buffer_list_term],
    over the nodes that remain to be visited. *)
Fixpoint free_entries (nodes : list addr) : M unit :=
  match nodes with
  | [] => mret tt
  | cur :: tmp => kfree (PEntry cur);; free_entries tmp
  end.

(** [simple_context_buffer_list_term]: every entry is freed (the list head
    itself is left as it was), then the mutex is destroyed. *)
Definition simple_context_buffer_list_term : M unit :=
  k ← get;
  free_entries (buf_list_head (ctx k));;
  mutex_destroy.

(* ===================================================================== *)
(** ** simple_context.c: initialization and teardown *)
(* ===================================================================== *)

(** [struct simple_context_init_term]; either pointer may be null. *)
Record simple_context_init_term := InitTerm {
  init : option (M Z);
  term : option (M unit);
}.

(** [g_ctx_init]. [proc_ok] is what procfs will answer to the registration
    made by the second initializer. *)
Definition g_ctx_init (proc_ok : bool) : list simple_context_init_term :=
  [ InitTerm (Some simple_context_buffer_list_init) (Some simple_context_buffer_list_term);
    InitTerm (Some (simple_context_procfs_init proc_ok)) (Some simple_context_procfs_term) ].

Section Lifecycle.

(** The functions below only index the table; they are written over any
    table and instantiated with [g_ctx_init] afterwards. *)
Variable table : list simple_context_init_term.

(** [simple_context_term_partial(ctx, i)]:
    [while (i-- > 0) if (table[i].term) table[i].term(ctx);] *)
Fixpoint term_partial (i : nat) : M unit :=
  match i with
  | O => mret tt
  | S i' =>
      match table !! i' with
      | Some (InitTerm _ (Some t)) => emit (EvTerm i');; t
      | _ => mret tt
      end;;
      term_partial i'
  end.

(** The [for] loop of [simple_context_init], entered at index [i] with
    [rest] the table entries from [i] on: it yields [ret] and the value
    of [i] on exit. *)
Fixpoint init_loop (rest : list simple_context_init_term) (i : nat) (ret : Z)
    : M (Z * nat) :=
  match rest with
  | [] => mret (ret, i)                       (* i < ARRAY_SIZE fails *)
  | s :: rest' =>
      if ret =? 0 then
        match init s with
        | None => init_loop rest' (S i) ret   (* continue; ++i *)
        | Some f =>
            r ← (emit (EvInit i);; f);
            init_loop rest' (S i) r           (* ++i *)
        end
      else mret (ret, i)                      (* !ret fails *)
  end.

(** [simple_context_init] over [table]. *)
Definition init_with : M Z :=
  '(ret, i) ← init_loop table 0%nat 0;
  if ret =? 0 then mret ret
  else
    term_partial i;;
    kfree PCtx;;
    mret ret.

(** [simple_context_term] over [table]. *)
Definition term_with : M unit :=
  term_partial (length table).

End Lifecycle.

(** [simple_context_term_partial(ctx, i)]; the table is the same whatever
    procfs answered at registration, as far as [term] is concerned. *)
Definition simple_context_term_partial (i : nat) : M unit :=
  term_partial (g_ctx_init true) i.

(** [simple_context_init(ctx)]. *)
Definition simple_context_init (proc_ok : bool) : M Z :=
  init_with (g_ctx_init proc_ok).

(** [simple_context_term(ctx)]. *)
Definition simple_context_term : M unit :=
  term_with (g_ctx_init true).

(* ===================================================================== *)
(** ** simple_driver.c *)
(* ===================================================================== *)

(** The kernel at module load: [g_ctx] is a zeroed static object, the
    module owns no slab memory yet, and procfs holds the nodes of others. *)
Definition module_load (nodes : list string) : kernel :=
  Kernel (Context None [] false) StaticStorage false ∅ nodes [].

(** [simple_driver_init]. *)
Definition simple_driver_init (proc_ok : bool) : M Z :=
  simple_context_init proc_ok.

(** [simple_driver_exit]. *)
Definition simple_driver_exit : M unit :=
  simple_context_term.

(* ===================================================================== *)
(** ** System calls on the pseudo-file *)
(* ===================================================================== *)

(** The loop of the seq_file helper over the hooks, from cursor [p]:
    [show] the record, move to the [next] one, until the cursor is null.
    [fuel] bounds the number of records visited. This is the helper's
    traversal when its buffer has room for the records; when a record does
    not fit, the helper stops and starts over with a larger buffer, which
    is not modelled here. *)
Fixpoint seq_loop (fuel : nat) (m : seq_file) (p : cursor) (pos : Z)
    : M (seq_file * Z) :=
  match p with
  | None => mret (m, pos)
  | Some v =>
      match fuel with
      | O => stuck
      | S fuel' =>
          '(m', _) ← simple_context_seq_show m v;
          '(p', pos') ← simple_context_seq_next v pos;
          seq_loop fuel' m' p' pos'
      end
  end.

(** One read session with a seq_file buffer of [size] bytes, from record
    index [pos]: [start], the loop, [stop], and only then the transfer of
    what was collected to the reader. It yields the seq_file and the index
    reached. *)
Definition seq_read_session (size : Z) (pos : Z) : M (seq_file * Z) :=
  p ← simple_context_seq_start pos;
  k ← get;
  r ← seq_loop (length (buf_list_head (ctx k))) (SeqFile size 0 []) p pos;
  simple_context_seq_stop;;
  emit (EvCopyToUser (count (fst r)));;
  mret r.

(** The calls user space can make, with what the kernel will answer to the
    requests made on the way. *)
Inductive op :=
| Open (mem_ok : bool)
| Read (size : Z) (pos : Z)
| Write (mem_ok : bool) (user_buf : list byte) (len : Z) (pos : Z)
| Close.

Inductive result :=
| ROpen (r : Z)
| RRead (m : seq_file) (pos : Z)
| RWrite (r : Z) (pos : Z)
| RClose (r : Z).

Definition run_op (o : op) : M result :=
  match o with
  | Open mem_ok => r ← simple_context_proc_open mem_ok; mret (ROpen r)
  | Read size pos => '(m, pos') ← seq_read_session size pos; mret (RRead m pos')
  | Write mem_ok user_buf len pos =>
      '(r, pos') ← simple_context_proc_write mem_ok user_buf len pos;
      mret (RWrite r pos')
  | Close => r ← seq_release; mret (RClose r)
  end.

Fixpoint run_ops (os : list op) : M (list result) :=
  match os with
  | [] => mret []
  | o :: os' => r ← run_op o; rs ← run_ops os'; mret (r :: rs)
  end.

(** The states of a loaded module: [simple_driver_init] returned 0, then
    any number of calls were served. *)
Definition reachable (k : kernel) : Prop :=
  exists nodes proc_ok k0 os rs,
    simple_driver_init proc_ok (module_load nodes) = Some (0, k0) /\
    run_ops os k0 = Some (rs, k).

(** The bytes [show] emits for the entry at [a]. *)
Definition payload (k : kernel) (a : addr) : list byte :=
  match slab k !! a with
  | Some (_, e) => take (Z.to_nat (len e)) (buf e)
  | None => []
  end.

(** The [len] of the entry at [a]. *)
Definition entry_len (k : kernel) (a : addr) : Z :=
  match slab k !! a with
  | Some (_, e) => len e
  | None => 0
  end.

(** The number of bytes held by the log. *)
Definition log_size (k : kernel) : Z :=
  foldr Z.add 0 (map (entry_len k) (buf_list_head (ctx k))).

(** The bytes held by the log, in list order. *)
Definition log_bytes (k : kernel) : list byte :=
  concat (map (payload k) (buf_list_head (ctx k))).

(* ===================================================================== *)
(** ** Outcomes of a write *)
(* ===================================================================== *)

(** The number of bytes the user copy transfers. *)
Definition copied (user_buf : list byte) (n : Z) : nat :=
  Z.to_nat (Z.min n (Z.of_nat (length user_buf))).

(** The allocator's decision for a write of [n] bytes. *)
Definition served (mem_ok : bool) (n : Z) : bool :=
  mem_ok && (struct_size n <=? KMALLOC_MAX_SIZE).

(** The entry a write of [n] bytes leaves in the slab once [w] bytes have
    been copied. *)
Definition written_entry (user_buf : list byte) (n : Z) (w : nat) : Z * simple_buffer_entry :=
  (struct_size n,
   BufferEntry (Z.of_nat w)
     (take w user_buf ++ drop w (replicate (Z.to_nat (struct_size n - sizeof_entry)) x00))).

(* ===================================================================== *)
(** ** Outcomes of a read session *)
(* ===================================================================== *)

(** The kernel with more events in its trace. *)
Definition add_trace (evs : list event) (k : kernel) : kernel :=
  Kernel (ctx k) (ctx_storage k) (ctx_freed k) (slab k) (procfs k) (trace k ++ evs).

(** The cursor that stands for a pointer to the first node of [v]. *)
Definition cursor_of (v : list addr) : cursor :=
  match v with [] => None | a :: v' => Some (a :: v') end.

(** [pos] after [n] calls of [next]. *)
Fixpoint advance (n : nat) (pos : Z) : Z :=
  match n with
  | O => pos
  | S n' => advance n' (to_loff_t (pos + 1))
  end.

(** The seq_file after [show] has run on every node of [v]. *)
Fixpoint shown (s : gmap addr (Z * simple_buffer_entry)) (m : seq_file) (v : list addr)
    : seq_file :=
  match v with
  | [] => m
  | a :: v' =>
      match s !! a with
      | Some (_, e) => shown s (fst (seq_write m (buf e) (len e))) v'
      | None => m
      end
  end.

(** The event [show] leaves for the node at [a]. *)
Definition show_event (s : gmap addr (Z * simple_buffer_entry)) (a : addr) : event :=
  EvSeqWrite (match s !! a with Some (_, e) => len e | None => 0 end).

(** The nodes a session that starts at index [pos] goes through. *)
Definition session_nodes (head : list addr) (pos : Z) : list addr :=
  if pos <? 0 then [] else drop (Z.to_nat pos) head.

(* ===================================================================== *)
(** ** States of a loaded module *)
(* ===================================================================== *)

(** An entry of the log: at least one byte, all of them inside [buf]. *)
Definition entry_ok (o : Z * simple_buffer_entry) : Prop :=
  1 <= len (snd o) <= Z.of_nat (length (buf (snd o))) /\ len (snd o) <= SIZE_MAX.

(** Between two calls: the mutex is free, the nodes of the list are
    distinct, they are exactly the live entries, every entry is well formed,
    and the node registered at load is still there. *)
Record inv (k : kernel) : Prop := Inv {
  inv_lock : buf_list_lock (ctx k) = false;
  inv_nodup : NoDup (buf_list_head (ctx k));
  inv_live : dom (slab k) = list_to_set (buf_list_head (ctx k));
  inv_entries : map_Forall (fun _ o => entry_ok o) (slab k);
  inv_proc : proc_entry (ctx k) = Some "simple"%string;
  inv_static : ctx_storage k = StaticStorage /\ ctx_freed k = false;
}.

(* ===================================================================== *)
(** ** The step relation of the calls *)
(* ===================================================================== *)

(** What each call does to a kernel that satisfies the invariant. *)
Inductive step : op -> kernel -> result -> kernel -> Prop :=
| step_open k :
    step (Open true) k (ROpen 0) (add_trace [EvSeqOpen] k)
| step_open_nomem k :
    step (Open false) k (ROpen (- ENOMEM)) k
| step_close k :
    step Close k (RClose 0) (add_trace [EvSeqRelease] k)
| step_read k size pos v m :
    v = session_nodes (buf_list_head (ctx k)) pos ->
    m = shown (slab k) (SeqFile size 0 []) v ->
    step (Read size pos) k (RRead m (advance (length v) pos))
      (add_trace ([EvMutexLock] ++ map (show_event (slab k)) v
                  ++ [EvMutexUnlock; EvCopyToUser (count m)]) k)
| step_write_nomem k mem_ok user_buf n pos :
    served mem_ok n = false ->
    step (Write mem_ok user_buf n pos) k (RWrite 0 pos)
      (add_trace [EvKzalloc (struct_size n) None] k)
| step_write_fault k mem_ok user_buf n pos a :
    served mem_ok n = true ->
    copied user_buf n = 0%nat ->
    a = fresh (dom (slab k)) ->
    step (Write mem_ok user_buf n pos) k (RWrite (- EFAULT) pos)
      (add_trace [EvKzalloc (struct_size n) (Some a); EvCopyFromUser n n;
                  EvKfree (PEntry a)] k)
| step_write_append k mem_ok user_buf n pos a w :
    served mem_ok n = true ->
    w = copied user_buf n ->
    w <> 0%nat ->
    a = fresh (dom (slab k)) ->
    step (Write mem_ok user_buf n pos) k
      (RWrite (Z.of_nat w) (to_loff_t (pos + Z.of_nat w)))
      (Kernel (Context (proc_entry (ctx k)) (buf_list_head (ctx k) ++ [a]) false)
         (ctx_storage k) (ctx_freed k)
         (<[a := written_entry user_buf n w]> (slab k)) (procfs k)
         (trace k ++ [EvKzalloc (struct_size n) (Some a);
                      EvCopyFromUser n (n - Z.of_nat w);
                      EvMutexLock; EvListAddTail a; EvMutexUnlock])).

(* ===================================================================== *)
(** ** States after module load *)
(* ===================================================================== *)

(** The kernel after a successful [simple_driver_init]. *)
Definition loaded (nodes : list string) : kernel :=
  Kernel (Context (Some "simple"%string) [] false) StaticStorage false ∅
    (nodes ++ ["simple"%string])
    [EvInit 0; EvMutexInit; EvInit 1; EvProcCreate "simple" true].

(** The kernel after a failed [simple_driver_init]. *)
Definition load_failed (nodes : list string) : kernel :=
  Kernel (Context None [] false) StaticStorage true ∅ nodes
    [EvInit 0; EvMutexInit; EvInit 1; EvProcCreate "simple" false;
     EvTerm 1; EvProcRemove None; EvTerm 0; EvMutexDestroy; EvKfree PCtx].

(** Whether procfs accepts the registration of the node. *)
Definition registers (proc_ok : bool) (nodes : list string) : bool :=
  proc_ok && bool_decide ("simple"%string ∉ nodes).

(* ===================================================================== *)
(** ** Reading the whole log *)
(* ===================================================================== *)

(** What one read session from index 0 collects in a seq_file buffer of
    [size] bytes. *)
Definition full_read (size : Z) (k : kernel) : option seq_file :=
  match seq_read_session size 0 k with
  | Some ((m, _), _) => Some m
  | None => None
  end.

(* ===================================================================== *)
(** ** What the calls put on record *)
(* ===================================================================== *)

(** The bytes a call has put on record, read off its arguments and its
    result: the first [r] bytes of the user buffer for a write that
    returned [r > 0], nothing otherwise. *)
Definition recorded (o : op) (r : result) : list byte :=
  match o, r with
  | Write _ user_buf _ _, RWrite w _ =>
      if 0 <? w then take (Z.to_nat w) user_buf else []
  | _, _ => []
  end.

(** The node a call has appended, if any. *)
Definition appended (k : kernel) (o : op) (r : result) : list addr :=
  match o, r with
  | Write _ _ _ _, RWrite w _ => if 0 <? w then [fresh (dom (slab k))] else []
  | _, _ => []
  end.

(* ===================================================================== *)
(** ** States after teardown, and call orders *)
(* ===================================================================== *)

(** The slab once the nodes of [l] have been freed, first to last. *)
Definition freed_all (l : list addr) (s : gmap addr (Z * simple_buffer_entry))
    : gmap addr (Z * simple_buffer_entry) :=
  foldl (fun s a => delete a s) s l.

(** The kernel after [simple_context_term] on a loaded module. *)
Definition unloaded (k : kernel) : kernel :=
  Kernel (ctx k) (ctx_storage k) (ctx_freed k) ∅
    (filter (fun x => x ≠ "simple"%string) (procfs k))
    (trace k ++ [EvTerm 1; EvProcRemove (Some "simple"%string); EvTerm 0]
             ++ map (fun a => EvKfree (PEntry a)) (buf_list_head (ctx k))
             ++ [EvMutexDestroy]).

(** The stages whose [term] a trace shows being called, in call order. *)
Definition term_calls (tr : list event) : list nat :=
  omap (fun e => match e with EvTerm i => Some i | _ => None end) tr.

(** The stages whose [init] a trace shows being called, in call order. *)
Definition init_calls (tr : list event) : list nat :=
  omap (fun e => match e with EvInit i => Some i | _ => None end) tr.

(** The kernel after two writes, ["hello"] and ["ab"], on a module loaded
    into an empty procfs. *)
Definition two_writes : list op :=
  [Write true [x68; x65; x6c; x6c; x6f] 5 0; Write true [x61; x62] 2 5].

Definition after_two_writes : kernel :=
  Eval vm_compute in
    match run_ops two_writes (loaded []) with
    | Some (_, k) => k
    | None => loaded []
    end.

(* ===================================================================== *)
(** ** Entries of the log *)
(* ===================================================================== *)

(** Every node of the list is a live entry with [len >= 1]. *)
Definition entries_nonempty (k : kernel) : Prop :=
  Forall (fun a => exists sz e, slab k !! a = Some (sz, e) /\ 1 <= len e)
    (buf_list_head (ctx k)).

(* ===================================================================== *)
(** ** Traces and the list mutex *)
(* ===================================================================== *)

(** Transfers between kernel and user memory. *)
Definition is_user_transfer (e : event) : bool :=
  match e with
  | EvCopyFromUser _ _ | EvCopyToUser _ => true
  | _ => false
  end.

(** Whether the list mutex is held after [e], given whether it was held
    before. *)
Definition lock_after (held : bool) (e : event) : bool :=
  match e with
  | EvMutexLock => true
  | EvMutexUnlock | EvMutexInit => false
  | _ => held
  end.

Definition held_after (held : bool) (tr : list event) : bool :=
  foldl lock_after held tr.

(** No transfer to or from user memory happens while the mutex is held. *)
Fixpoint transfers_unlocked (held : bool) (tr : list event) : bool :=
  match tr with
  | [] => true
  | e :: tr' =>
      negb (held && is_user_transfer e) && transfers_unlocked (lock_after held e) tr'
  end.

(* ===================================================================== *)
(** ** Observations used by the scenarios *)
(* ===================================================================== *)

(** The value a write returns, or [None] if it does not return. *)
Definition write_returns (mem_ok : bool) (user_buf : list byte) (n pos : Z)
    (k : kernel) : option Z :=
  match simple_context_proc_write mem_ok user_buf n pos k with
  | Some ((r, _), _) => Some r
  | None => None
  end.

(** The bytes of a full read with a page-sized seq_file. *)
Definition read_all (k : kernel) : option (list byte) :=
  match full_read 4096 k with
  | Some m => Some (sbuf m)
  | None => None
  end.

(* ===================================================================== *)
(** ** Layout of the entries, and sizes of sessions *)
(* ===================================================================== *)

(** How an entry sits in its allocation: the request was for the header
    and every byte of [buf], and the bytes of [buf] past [len] are the
    zeroes [kzalloc] left there. *)
Definition entry_layout (o : Z * simple_buffer_entry) : Prop :=
  fst o = sizeof_entry + Z.of_nat (length (buf (snd o))) /\
  drop (Z.to_nat (len (snd o))) (buf (snd o))
  = replicate (length (buf (snd o)) - Z.to_nat (len (snd o))) x00.

(** The number of write calls among [os] that returned a positive count. *)
Fixpoint positive_writes (os : list op) (rs : list result) : nat :=
  match os, rs with
  | Write _ _ _ _ :: os', RWrite r _ :: rs' =>
      ((if (0 <? r)%Z then 1 else 0) + positive_writes os' rs')%nat
  | _ :: os', _ :: rs' => positive_writes os' rs'
  | _, _ => 0%nat
  end.

(** The bytes asked of the allocator for the entry at [a]. *)
Definition alloc_size (k : kernel) (a : addr) : Z :=
  match slab k !! a with
  | Some (sz, _) => sz
  | None => 0
  end.

(** Three more calls on top of [after_two_writes]: a partial write, a read
    and a write that copies nothing; their results and the kernel they
    leave. *)
Definition more_calls : list op :=
  [Write true [x63; x64] 4 7; Read 4096 0; Write true [] 3 9].

Definition more_results : list result :=
  Eval vm_compute in
    match run_ops more_calls after_two_writes with
    | Some (rs, _) => rs
    | None => []
    end.

Definition after_more_calls : kernel :=
  Eval vm_compute in
    match run_ops more_calls after_two_writes with
    | Some (_, k) => k
    | None => after_two_writes
    end.

(** * Part II: properties *)

(** Unfolds the monad and the state accessors. *)
Ltac run :=
  unfold mbind, M_bind, mret, M_ret, get, modify, emit, stuck,
    set_slab, set_ctx, set_ctx_freed, set_procfs, log_event,
    set_head, set_lock, set_proc_entry; simpl.

(* ===================================================================== *)
(** ** Integer facts *)
(* ===================================================================== *)

Lemma to_size_t_range z : 0 <= to_size_t z <= SIZE_MAX.
Proof. unfold to_size_t, SIZE_MAX. pose proof (Z.mod_pos_bound z (2 ^ 64)). lia. Qed.

Lemma to_size_t_small z : 0 <= z <= SIZE_MAX -> to_size_t z = z.
Proof. unfold to_size_t, SIZE_MAX. intros. apply Z.mod_small. lia. Qed.

Lemma to_ssize_t_small z : - 2 ^ 63 <= z <= SSIZE_MAX -> to_ssize_t z = z.
Proof.
  unfold to_ssize_t, SSIZE_MAX. intros.
  rewrite Z.mod_small; lia.
Qed.

Lemma to_loff_t_small z : - 2 ^ 63 <= z <= SSIZE_MAX -> to_loff_t z = z.
Proof. apply to_ssize_t_small. Qed.

(** A request the allocator can serve has not saturated, and is far below
    the range where [ssize_t] turns negative. *)
Lemma struct_size_served n :
  (struct_size n <=? KMALLOC_MAX_SIZE) = true ->
  struct_size n = sizeof_entry + n /\ n <= KMALLOC_MAX_SIZE - sizeof_entry.
Proof.
  unfold struct_size, KMALLOC_MAX_SIZE, SIZE_MAX, sizeof_entry.
  destruct (Z.ltb_spec (2 ^ 64 - 1) (24 + n)); intros Hle%Z.leb_le; lia.
Qed.

(* ===================================================================== *)
(** ** The three ways through [simple_context_proc_write] *)
(* ===================================================================== *)

Lemma proc_write_not_served mem_ok user_buf n pos k :
  served mem_ok n = false ->
  simple_context_proc_write mem_ok user_buf n pos k
  = Some ((0, pos), log_event (EvKzalloc (struct_size n) None) k).
Proof.
  unfold served. intros Hs.
  unfold simple_context_proc_write, kzalloc. run. rewrite Hs. reflexivity.
Qed.

Lemma fresh_slab_None (k : kernel) : slab k !! fresh (dom (slab k)) = None.
Proof. apply not_elem_of_dom, is_fresh. Qed.

Lemma proc_write_nothing_copied mem_ok user_buf n pos k :
  served mem_ok n = true ->
  copied user_buf n = 0%nat ->
  simple_context_proc_write mem_ok user_buf n pos k
  = Some ((- EFAULT, pos),
          Kernel (ctx k) (ctx_storage k) (ctx_freed k) (slab k) (procfs k)
            (trace k ++ [EvKzalloc (struct_size n) (Some (fresh (dom (slab k))));
                         EvCopyFromUser n n;
                         EvKfree (PEntry (fresh (dom (slab k))))])).
Proof.
  unfold served, copied. intros Hs Hc.
  unfold simple_context_proc_write, kzalloc, copy_from_user, store_len, kfree. run.
  rewrite Hs. run. rewrite !lookup_insert_eq. run. rewrite !lookup_insert_eq. run.
  rewrite Hc. simpl. rewrite Z.sub_0_r, Z.sub_diag. simpl.
  rewrite !lookup_insert_eq. run.
  rewrite !insert_insert_eq, delete_insert_eq, delete_id by apply fresh_slab_None.
  rewrite <- !app_assoc. reflexivity.
Qed.

Lemma copied_le user_buf n : (copied user_buf n <= length user_buf)%nat.
Proof. unfold copied. lia. Qed.

Lemma copied_pos user_buf n :
  copied user_buf n <> 0%nat ->
  1 <= Z.of_nat (copied user_buf n) <= n /\
  Z.of_nat (copied user_buf n) = Z.min n (Z.of_nat (length user_buf)).
Proof. unfold copied. lia. Qed.

(** What [written] evaluates to on a served request. *)
Lemma written_value mem_ok user_buf n :
  served mem_ok n = true ->
  copied user_buf n <> 0%nat ->
  to_ssize_t (to_size_t (n - (n - Z.of_nat (copied user_buf n))))
  = Z.of_nat (copied user_buf n).
Proof.
  unfold served. intros [_ Hs%struct_size_served]%andb_prop Hc%copied_pos.
  unfold KMALLOC_MAX_SIZE, sizeof_entry in Hs.
  replace (n - (n - Z.of_nat (copied user_buf n))) with (Z.of_nat (copied user_buf n)) by lia.
  rewrite to_size_t_small by (unfold SIZE_MAX; lia).
  apply to_ssize_t_small. unfold SSIZE_MAX. lia.
Qed.

Lemma proc_write_appended mem_ok user_buf n pos k :
  served mem_ok n = true ->
  buf_list_lock (ctx k) = false ->
  copied user_buf n <> 0%nat ->
  let w := copied user_buf n in
  let a := fresh (dom (slab k)) in
  simple_context_proc_write mem_ok user_buf n pos k
  = Some ((Z.of_nat w, to_loff_t (pos + Z.of_nat w)),
          Kernel (Context (proc_entry (ctx k)) (buf_list_head (ctx k) ++ [a]) false)
            (ctx_storage k) (ctx_freed k)
            (<[a := written_entry user_buf n w]> (slab k)) (procfs k)
            (trace k ++ [EvKzalloc (struct_size n) (Some a);
                         EvCopyFromUser n (n - Z.of_nat w);
                         EvMutexLock; EvListAddTail a; EvMutexUnlock])).
Proof.
  intros Hs Hl Hc w a. subst w a.
  pose proof (written_value mem_ok user_buf n Hs Hc) as Hw.
  pose proof (copied_pos _ _ Hc) as [Hpos _].
  unfold served in Hs.
  unfold simple_context_proc_write, kzalloc, copy_from_user, store_len,
    mutex_lock, list_add_tail, mutex_unlock. run.
  rewrite Hs. run. rewrite !lookup_insert_eq. run. rewrite !lookup_insert_eq. run.
  fold (copied user_buf n). rewrite Hw.
  destruct (Z.eqb_spec (Z.of_nat (copied user_buf n)) 0) as [E|_]; [lia|].
  run. rewrite Hl. run.
  rewrite to_size_t_small by (pose proof (to_ssize_t_small 0); unfold SIZE_MAX;
    apply andb_prop in Hs as [_ Hs%struct_size_served];
    unfold KMALLOC_MAX_SIZE, sizeof_entry in Hs; lia).
  rewrite !insert_insert_eq. rewrite <- !app_assoc. reflexivity.
Qed.

(* ===================================================================== *)
(** ** A read session *)
(* ===================================================================== *)

Lemma seq_list_start_cursor head pos :
  seq_list_start head pos = cursor_of (session_nodes head pos).
Proof.
  unfold seq_list_start, session_nodes, cursor_of.
  destruct (pos <? 0); reflexivity.
Qed.

Lemma session_nodes_length head pos :
  (length (session_nodes head pos) <= length head)%nat.
Proof.
  unfold session_nodes. destruct (pos <? 0); simpl; [lia|].
  rewrite length_drop. lia.
Qed.

Lemma seq_loop_spec v : forall fuel m pos k,
  (length v <= fuel)%nat ->
  Forall (fun a => is_Some (slab k !! a)) v ->
  seq_loop fuel m (cursor_of v) pos k
  = Some ((shown (slab k) m v, advance (length v) pos),
          add_trace (map (show_event (slab k)) v) k).
Proof.
  induction v as [|a v IH]; intros fuel m pos k Hfuel Hlive.
  - destruct fuel; simpl; unfold add_trace; run; rewrite app_nil_r; by destruct k.
  - destruct fuel as [|fuel]; [simpl in Hfuel; lia|].
    apply Forall_cons in Hlive as [[[sz e] Ha] Hlive].
    simpl. unfold simple_context_seq_show, load_entry, simple_context_seq_next. run.
    rewrite Ha. run.
    change (match v with [] => None | a' :: v' => Some (a' :: v') end) with (cursor_of v).
    rewrite IH; [|simpl in Hfuel; lia|assumption].
    unfold add_trace, show_event. simpl. rewrite Ha, <- app_assoc. reflexivity.
Qed.

(** A whole session, on a kernel whose list mutex is free and whose list
    nodes are live. *)
Lemma seq_read_session_spec size pos k :
  buf_list_lock (ctx k) = false ->
  Forall (fun a => is_Some (slab k !! a)) (buf_list_head (ctx k)) ->
  let v := session_nodes (buf_list_head (ctx k)) pos in
  let m := shown (slab k) (SeqFile size 0 []) v in
  seq_read_session size pos k
  = Some ((m, advance (length v) pos),
          add_trace ([EvMutexLock] ++ map (show_event (slab k)) v
                     ++ [EvMutexUnlock; EvCopyToUser (count m)]) k).
Proof.
  intros Hlock Hlive v m.
  unfold seq_read_session, simple_context_seq_start, simple_context_seq_stop,
    mutex_lock, mutex_unlock. run.
  rewrite Hlock. run. rewrite seq_list_start_cursor. fold v.
  match goal with |- context [seq_loop ?f ?m0 ?c ?p ?k'] =>
    rewrite (seq_loop_spec v f m0 p k') end.
  - simpl. fold m. unfold add_trace. simpl. rewrite <- !app_assoc. simpl.
    destruct k as [[pe hd lk] st fr sl pf tr]. simpl in *. subst lk. reflexivity.
  - simpl. apply session_nodes_length.
  - simpl. subst v. unfold session_nodes. destruct (pos <? 0); [constructor|].
    eapply Forall_drop. exact Hlive.
Qed.

Lemma total_len_nonneg k v :
  Forall (fun a => 0 <= entry_len k a /\ is_Some (slab k !! a)) v ->
  0 <= foldr Z.add 0 (map (entry_len k) v).
Proof.
  induction v as [|a v IH]; simpl; [lia|].
  intros [[Ha _] Hv]%Forall_cons. specialize (IH Hv). lia.
Qed.

(** With room for every record, the seq_file ends up holding the records
    of the session one after the other. *)
Lemma shown_fits k v : forall m,
  Forall (fun a => 0 <= entry_len k a /\ is_Some (slab k !! a)) v ->
  count m + foldr Z.add 0 (map (entry_len k) v) < size m ->
  shown (slab k) m v
  = SeqFile (size m) (count m + foldr Z.add 0 (map (entry_len k) v))
      (sbuf m ++ concat (map (payload k) v)).
Proof.
  induction v as [|a v IH]; intros m Hv Hroom; simpl in *.
  - rewrite Z.add_0_r, app_nil_r. by destruct m.
  - apply Forall_cons in Hv as [[Hlen [[sz e] Ha]] Hv].
    pose proof (total_len_nonneg k v Hv) as Hrest.
    assert (entry_len k a = len e) as Hl by (unfold entry_len; by rewrite Ha).
    assert (payload k a = take (Z.to_nat (len e)) (buf e)) as Hp
      by (unfold payload; by rewrite Ha).
    rewrite Hl in *. rewrite Hp, Ha.
    unfold seq_write. destruct (Z.ltb_spec (count m + len e) (size m)); [|lia].
    simpl. rewrite IH; simpl; [|assumption|lia].
    rewrite Z.add_assoc, <- app_assoc. reflexivity.
Qed.

(* ===================================================================== *)
(** ** The invariant of a loaded module *)
(* ===================================================================== *)

Lemma inv_head_live k :
  inv k -> Forall (fun a => is_Some (slab k !! a)) (buf_list_head (ctx k)).
Proof.
  intros Hk. apply Forall_forall. intros a Ha.
  apply elem_of_dom. rewrite (inv_live k Hk). by apply elem_of_list_to_set.
Qed.

Lemma inv_head_entries k :
  inv k ->
  Forall (fun a => exists sz e, slab k !! a = Some (sz, e) /\ entry_ok (sz, e))
    (buf_list_head (ctx k)).
Proof.
  intros Hk. eapply Forall_impl; [exact (inv_head_live k Hk)|].
  intros a [[sz e] Ha]. exists sz, e. split; [assumption|].
  exact (inv_entries k Hk a (sz, e) Ha).
Qed.

Lemma inv_add_trace evs k : inv k -> inv (add_trace evs k).
Proof. intros [? ? ? ? ? ?]. by constructor. Qed.

Lemma inv_log_event e k : inv k -> inv (log_event e k).
Proof. intros [? ? ? ? ? ?]. by constructor. Qed.

(** The entry a successful write leaves is well formed. *)
Lemma written_entry_ok mem_ok user_buf n :
  served mem_ok n = true ->
  copied user_buf n <> 0%nat ->
  entry_ok (written_entry user_buf n (copied user_buf n)).
Proof.
  intros Hs Hc. pose proof (copied_pos _ _ Hc) as [Hpos Hmin].
  pose proof (copied_le user_buf n) as Hle.
  unfold served in Hs. apply andb_prop in Hs as [_ [Hsz Hn]%struct_size_served].
  unfold entry_ok, written_entry. simpl.
  rewrite length_app, length_take, length_drop, length_replicate, Hsz.
  unfold KMALLOC_MAX_SIZE, sizeof_entry, SIZE_MAX in *. lia.
Qed.

(* ===================================================================== *)
(** ** One call, as a step on the kernel state *)
(* ===================================================================== *)

(** Every call returns, and does what [step] says. *)
Lemma run_op_step o k :
  inv k -> exists r k', run_op o k = Some (r, k') /\ step o k r k'.
Proof.
  intros Hk. destruct o as [mem_ok|size pos|mem_ok user_buf n pos|].
  - destruct mem_ok; eexists _, _; (split; [reflexivity|]).
    + apply step_open.
    + destruct k. apply step_open_nomem.
  - eexists _, _. split.
    + unfold run_op. unfold mbind at 1, M_bind at 1.
      rewrite (seq_read_session_spec size pos k (inv_lock k Hk) (inv_head_live k Hk)).
      reflexivity.
    + by apply step_read.
  - unfold run_op. unfold mbind at 1, M_bind at 1.
    destruct (served mem_ok n) eqn:Hs.
    + destruct (decide (copied user_buf n = 0%nat)) as [Hc|Hc].
      * rewrite (proc_write_nothing_copied _ _ _ _ _ Hs Hc).
        eexists _, _. split; [reflexivity|]. by eapply step_write_fault.
      * rewrite (proc_write_appended _ _ _ _ _ Hs (inv_lock k Hk) Hc).
        eexists _, _. split; [reflexivity|]. by eapply step_write_append.
    + rewrite (proc_write_not_served _ _ _ _ _ Hs).
      eexists _, _. split; [reflexivity|]. by apply step_write_nomem.
  - eexists _, _. split; [reflexivity|]. apply step_close.
Qed.

(** A call that returned did what [step] says. *)
Lemma run_op_inv_step o k r k' :
  inv k -> run_op o k = Some (r, k') -> step o k r k'.
Proof.
  intros Hk Hrun. destruct (run_op_step o k Hk) as (r0 & k0 & Hrun0 & Hstep).
  congruence.
Qed.

Lemma step_inv o k r k' : inv k -> step o k r k' -> inv k'.
Proof.
  intros Hk Hstep. destruct Hstep; try (by apply inv_add_trace); try assumption.
  subst. destruct Hk as [Hlock Hnd Hlive Hent Hproc Hst].
  assert (fresh (dom (slab k)) ∉ buf_list_head (ctx k)) as Hfresh.
  { intros Hin. apply (elem_of_list_to_set (C:=gset nat)) in Hin.
    rewrite <- Hlive in Hin. exact (is_fresh _ Hin). }
  constructor; simpl; try assumption.
  - reflexivity.
  - apply NoDup_app. split; [assumption|]. split; [|apply NoDup_singleton].
    intros x Hx ->%list_elem_of_singleton. by apply Hfresh.
  - rewrite dom_insert_L, list_to_set_app_L, Hlive. simpl.
    rewrite union_empty_r_L. apply union_comm_L.
  - apply map_Forall_insert_2; [|assumption].
    by eapply written_entry_ok.
Qed.

(* ===================================================================== *)
(** ** Sequences of calls *)
(* ===================================================================== *)

Lemma run_ops_cons o os k rs k' :
  run_ops (o :: os) k = Some (rs, k') ->
  exists r k1 rs',
    run_op o k = Some (r, k1) /\ run_ops os k1 = Some (rs', k') /\ rs = r :: rs'.
Proof.
  simpl. unfold mbind at 1, M_bind at 1.
  destruct (run_op o k) as [[r k1]|]; [|discriminate].
  unfold mbind at 1, M_bind at 1.
  destruct (run_ops os k1) as [[rs' k2]|] eqn:Hrest; [|discriminate].
  unfold mret, M_ret. intros [= <- <-]. by exists r, k1, rs'.
Qed.

(** An induction principle for what a sequence of calls establishes: a
    property of the run that holds of the empty run and is carried over
    each step holds of every run from a state that meets the invariant. *)
Lemma run_ops_ind (P : kernel -> list op -> list result -> kernel -> Prop) :
  (forall k, inv k -> P k [] [] k) ->
  (forall k o r k1 os rs k',
      inv k -> step o k r k1 -> inv k1 -> run_ops os k1 = Some (rs, k') ->
      P k1 os rs k' -> P k (o :: os) (r :: rs) k') ->
  forall os k rs k', inv k -> run_ops os k = Some (rs, k') -> P k os rs k'.
Proof.
  intros Hnil Hcons. induction os as [|o os IH]; intros k rs k' Hk Hrun.
  - injection Hrun as <- <-. by apply Hnil.
  - apply run_ops_cons in Hrun as (r & k1 & rs' & Hop & Hrun & ->).
    pose proof (run_op_inv_step o k r k1 Hk Hop) as Hstep.
    pose proof (step_inv o k r k1 Hk Hstep) as Hk1.
    eapply Hcons; eauto.
Qed.

Lemma run_ops_inv os k rs k' : inv k -> run_ops os k = Some (rs, k') -> inv k'.
Proof.
  intros Hk Hrun.
  by apply (run_ops_ind (fun _ _ _ k' => inv k')) with (os := os) (k := k) (rs := rs).
Qed.

(** Every sequence of calls is served to the end. *)
Lemma run_ops_total os : forall k, inv k -> exists rs k', run_ops os k = Some (rs, k').
Proof.
  induction os as [|o os IH]; intros k Hk.
  - by exists [], k.
  - destruct (run_op_step o k Hk) as (r & k1 & Hop & Hstep).
    destruct (IH k1 (step_inv o k r k1 Hk Hstep)) as (rs & k' & Hrun).
    exists (r :: rs), k'. simpl. unfold mbind at 1, M_bind at 1. rewrite Hop.
    unfold mbind at 1, M_bind at 1. by rewrite Hrun.
Qed.

(* ===================================================================== *)
(** ** Module load *)
(* ===================================================================== *)

Lemma simple_driver_init_spec proc_ok nodes :
  simple_driver_init proc_ok (module_load nodes)
  = if registers proc_ok nodes then Some (0, loaded nodes)
    else Some (- ENOMEM, load_failed nodes).
Proof.
  unfold registers, simple_driver_init, simple_context_init, init_with, g_ctx_init,
    simple_context_procfs_init, proc_create_data, module_load.
  simpl. run.
  destruct (proc_ok && bool_decide ("simple"%string ∉ nodes)); reflexivity.
Qed.

Lemma loaded_inv nodes : inv (loaded nodes).
Proof.
  constructor; simpl; try done.
  apply NoDup_nil_2.
Qed.

Lemma reachable_inv k : reachable k -> inv k.
Proof.
  intros (nodes & proc_ok & k0 & os & rs & Hload & Hrun).
  rewrite simple_driver_init_spec in Hload.
  destruct (registers proc_ok nodes); [|discriminate].
  injection Hload as <-. eapply run_ops_inv; [apply loaded_inv|exact Hrun].
Qed.

(* ===================================================================== *)
(** ** Full reads *)
(* ===================================================================== *)

Lemma full_read_shown size k :
  inv k ->
  full_read size k
  = Some (shown (slab k) (SeqFile size 0 []) (buf_list_head (ctx k))).
Proof.
  intros Hk. unfold full_read.
  by rewrite (seq_read_session_spec size 0 k (inv_lock k Hk) (inv_head_live k Hk)).
Qed.

(** A full read depends on the list and on the entries only. *)
Lemma full_read_eq size k k' :
  inv k -> inv k' -> ctx k' = ctx k -> slab k' = slab k ->
  full_read size k' = full_read size k.
Proof.
  intros Hk Hk' Hctx Hslab. rewrite !full_read_shown by assumption.
  by rewrite Hctx, Hslab.
Qed.

Lemma inv_head_lens k :
  inv k ->
  Forall (fun a => 0 <= entry_len k a /\ is_Some (slab k !! a)) (buf_list_head (ctx k)).
Proof.
  intros Hk. eapply Forall_impl; [exact (inv_head_entries k Hk)|].
  intros a (sz & e & Ha & [Hlen _]). unfold entry_len. rewrite Ha. simpl in Hlen.
  split; [lia|eauto].
Qed.

(** With a buffer that has room for the log, a full read returns the bytes
    of the log, without overflow. *)
Lemma full_read_fits size k :
  inv k -> log_size k < size ->
  full_read size k = Some (SeqFile size (log_size k) (log_bytes k)).
Proof.
  intros Hk Hsize. rewrite full_read_shown by assumption.
  rewrite (shown_fits k); [reflexivity|by apply inv_head_lens|exact Hsize].
Qed.

(* ===================================================================== *)
(** ** Writes of length zero *)
(* ===================================================================== *)

Lemma served_zero mem_ok : served mem_ok 0 = mem_ok.
Proof. unfold served. simpl. by rewrite andb_true_r. Qed.

Lemma copied_zero user_buf : copied user_buf 0 = 0%nat.
Proof. unfold copied. lia. Qed.

Lemma reachable_loaded : reachable (loaded []).
Proof. exists [], true, (loaded []), [], []. split; reflexivity. Qed.

(** C1, as stated, fails: on a loaded module, a write of length 0 whose
    entry is allocated does not report zero bytes written; it fails with
    [-EFAULT] (-14). *)
Lemma zero_length_write_is_EFAULT :
  reachable (loaded []) /\
  exists k',
    simple_context_proc_write true [] 0 0 (loaded []) = Some ((-14, 0), k') /\
    -14 <> 0.
Proof.
  split; [apply reachable_loaded|].
  eexists. split; [vm_compute; reflexivity|lia].
Qed.

(** C1, amended: a write of length 0 creates no entry and leaves the list,
    the slab and the file position as they were, so that a full read
    afterwards equals the full read before; it returns 0 when the entry
    cannot be allocated and [-EFAULT] when it can. *)
Theorem zero_length_write_neutral k mem_ok user_buf pos :
  reachable k ->
  exists k',
    simple_context_proc_write mem_ok user_buf 0 pos k
    = Some ((if mem_ok then - EFAULT else 0, pos), k') /\
    ctx k' = ctx k /\ slab k' = slab k /\
    forall size, full_read size k' = full_read size k.
Proof.
  intros Hk%reachable_inv.
  destruct mem_ok.
  - rewrite proc_write_nothing_copied by (apply served_zero || apply copied_zero).
    eexists. split; [reflexivity|]. split; [reflexivity|]. split; [reflexivity|].
    intros size. apply full_read_eq; try done.
    by apply (inv_add_trace _ k).
  - rewrite proc_write_not_served by apply served_zero.
    eexists. split; [reflexivity|]. split; [reflexivity|]. split; [reflexivity|].
    intros size. apply full_read_eq; try done.
    by apply inv_log_event.
Qed.

Lemma zero_length_write_neutral_witness :
  reachable (loaded []) /\
  exists k',
    simple_context_proc_write true [x61] 0 7 (loaded [])
    = Some ((- EFAULT, 7), k') /\
    ctx k' = ctx (loaded []) /\ slab k' = slab (loaded []) /\
    forall size, full_read size k' = full_read size (loaded []).
Proof.
  split; [apply reachable_loaded|].
  exact (zero_length_write_neutral (loaded []) true [x61] 7 reachable_loaded).
Defined.

(* ===================================================================== *)
(** ** What a step adds to the log *)
(* ===================================================================== *)

Lemma inv_fresh_not_in_head k :
  inv k -> fresh (dom (slab k)) ∉ buf_list_head (ctx k).
Proof.
  intros Hk Hin. apply (elem_of_list_to_set (C:=gset nat)) in Hin.
  rewrite <- (inv_live k Hk) in Hin. exact (is_fresh _ Hin).
Qed.

Lemma payload_written user_buf n k :
  payload
    (Kernel (Context (proc_entry (ctx k))
               (buf_list_head (ctx k) ++ [fresh (dom (slab k))]) false)
       (ctx_storage k) (ctx_freed k)
       (<[fresh (dom (slab k)) := written_entry user_buf n (copied user_buf n)]> (slab k))
       (procfs k)
       (trace k ++ [EvKzalloc (struct_size n) (Some (fresh (dom (slab k))));
                    EvCopyFromUser n (n - Z.of_nat (copied user_buf n));
                    EvMutexLock; EvListAddTail (fresh (dom (slab k))); EvMutexUnlock]))
    (fresh (dom (slab k)))
  = take (copied user_buf n) user_buf.
Proof.
  unfold payload. simpl. rewrite lookup_insert_eq. simpl. rewrite Nat2Z.id.
  apply take_app_length'. rewrite length_take_le; [done|apply copied_le].
Qed.

(** A step leaves the entries of the list as they were, and appends at most
    one node, at the tail. *)
Lemma step_head o k r k' :
  inv k -> step o k r k' ->
  buf_list_head (ctx k') = buf_list_head (ctx k) ++ appended k o r /\
  forall b, b ∈ buf_list_head (ctx k) -> slab k' !! b = slab k !! b.
Proof.
  intros Hk Hstep. destruct Hstep; simpl; try (by rewrite app_nil_r).
  subst. pose proof (copied_pos _ _ H1) as [Hpos _].
  destruct (Z.ltb_spec 0 (Z.of_nat (copied user_buf n))); [|lia].
  split; [reflexivity|]. intros b Hb. apply lookup_insert_ne.
  intros <-. by apply (inv_fresh_not_in_head k).
Qed.

Lemma payload_stable k k' l :
  (forall b, b ∈ l -> slab k' !! b = slab k !! b) ->
  map (payload k') l = map (payload k) l /\
  map (entry_len k') l = map (entry_len k) l.
Proof.
  intros Hl. split; apply map_ext_in; intros b Hb%list_elem_of_In;
    unfold payload, entry_len; by rewrite Hl.
Qed.

Lemma foldr_add_init (l : list Z) (z : Z) :
  foldr Z.add z l = foldr Z.add 0 l + z.
Proof. induction l as [|x l IH]; simpl; lia. Qed.

(** The bytes of the log after a step: those before, then those the call
    has put on record. *)
Lemma step_log_bytes o k r k' :
  inv k -> step o k r k' ->
  log_bytes k' = log_bytes k ++ recorded o r /\
  log_size k' = log_size k + Z.of_nat (length (recorded o r)).
Proof.
  intros Hk Hstep.
  destruct (step_head o k r k' Hk Hstep) as [Hhead Hsame].
  destruct (payload_stable k k' _ Hsame) as [Hpay Hlen].
  unfold log_bytes, log_size. rewrite Hhead, !map_app, concat_app, foldr_app, Hpay, Hlen.
  destruct Hstep; simpl; rewrite ?app_nil_r, ?Z.add_0_r; try done.
  subst. pose proof (copied_pos _ _ H1) as [Hpos _].
  pose proof (copied_le user_buf n) as Hle.
  destruct (Z.ltb_spec 0 (Z.of_nat (copied user_buf n))); [|lia].
  simpl. rewrite payload_written, app_nil_r, Nat2Z.id. split; [done|].
  unfold entry_len. simpl. rewrite lookup_insert_eq. simpl.
  rewrite length_take_le by assumption.
  rewrite foldr_add_init. lia.
Qed.

(* ===================================================================== *)
(** ** The three outcomes of a write *)
(* ===================================================================== *)

(** C5: when the entry cannot be allocated, the write returns 0 and leaves
    the log (the list, the entries, the file position) as it was. *)
Theorem write_alloc_failure_returns_zero k mem_ok user_buf n pos :
  served mem_ok n = false ->
  exists k',
    simple_context_proc_write mem_ok user_buf n pos k = Some ((0, pos), k') /\
    ctx k' = ctx k /\ slab k' = slab k /\
    trace k' = trace k ++ [EvKzalloc (struct_size n) None].
Proof.
  intros Hs. rewrite proc_write_not_served by assumption.
  eexists. repeat split; reflexivity.
Qed.

Lemma write_alloc_failure_returns_zero_witness :
  served false 5 = false /\
  exists k',
    simple_context_proc_write false [x68; x65; x6c; x6c; x6f] 5 0 (loaded [])
    = Some ((0, 0), k') /\
    ctx k' = ctx (loaded []) /\ slab k' = slab (loaded []) /\
    trace k' = trace (loaded []) ++ [EvKzalloc (struct_size 5) None].
Proof.
  split; [reflexivity|].
  exact (write_alloc_failure_returns_zero (loaded []) false
           [x68; x65; x6c; x6c; x6f] 5 0 eq_refl).
Defined.

(** C6: when the entry is allocated and the user copy transfers no byte of
    the [n >= 1] asked for, the write frees the entry it has just allocated
    and returns [-EFAULT]; the list, the entries and the file position are
    as before, and so is a full read. *)
Theorem write_nothing_copied_is_EFAULT k mem_ok user_buf n pos :
  reachable k ->
  1 <= n ->
  served mem_ok n = true ->
  copied user_buf n = 0%nat ->
  exists a k',
    simple_context_proc_write mem_ok user_buf n pos k
    = Some ((- EFAULT, pos), k') /\
    trace k' = trace k ++ [EvKzalloc (struct_size n) (Some a);
                           EvCopyFromUser n n;
                           EvKfree (PEntry a)] /\
    ctx k' = ctx k /\ slab k' = slab k /\
    forall size, full_read size k' = full_read size k.
Proof.
  intros Hk%reachable_inv Hn Hs Hc.
  rewrite proc_write_nothing_copied by assumption.
  eexists _, _. split; [reflexivity|]. repeat split.
  intros size. apply full_read_eq; try done.
  by apply (inv_add_trace _ k).
Qed.

Lemma write_nothing_copied_is_EFAULT_witness :
  reachable (loaded []) /\ 1 <= 16 /\ served true 16 = true /\
  copied [] 16 = 0%nat /\
  exists a k',
    simple_context_proc_write true [] 16 0 (loaded [])
    = Some ((- EFAULT, 0), k') /\
    trace k' = trace (loaded []) ++ [EvKzalloc (struct_size 16) (Some a);
                                     EvCopyFromUser 16 16;
                                     EvKfree (PEntry a)] /\
    ctx k' = ctx (loaded []) /\ slab k' = slab (loaded []) /\
    forall size, full_read size k' = full_read size (loaded []).
Proof.
  split; [apply reachable_loaded|]. split; [lia|].
  split; [reflexivity|]. split; [reflexivity|].
  apply (write_nothing_copied_is_EFAULT (loaded []) true [] 16 0);
    [apply reachable_loaded|lia|reflexivity|reflexivity].
Defined.

(** C3: a write of [n >= 1] bytes whose entry is allocated and whose user
    copy transfers [w] bytes, [1 <= w <= n], returns [w], moves the file
    position on by [w] and appends one entry at the tail of the list, of
    length [w], whose payload is the first [w] bytes of the user buffer;
    the entries already in the list are untouched, and a full read returns
    what it returned before followed by those [w] bytes. *)
Theorem write_appends_copied_prefix k mem_ok user_buf n pos w :
  reachable k ->
  1 <= n ->
  served mem_ok n = true ->
  w = Z.of_nat (copied user_buf n) ->
  1 <= w <= n ->
  exists a k',
    simple_context_proc_write mem_ok user_buf n pos k
    = Some ((w, to_loff_t (pos + w)), k') /\
    (- 2 ^ 63 <= pos + w <= SSIZE_MAX -> to_loff_t (pos + w) = pos + w) /\
    buf_list_head (ctx k') = buf_list_head (ctx k) ++ [a] /\
    (a ∉ buf_list_head (ctx k)) /\
    entry_len k' a = w /\
    payload k' a = take (Z.to_nat w) user_buf /\
    Z.of_nat (length (payload k' a)) = w /\
    (forall b, b ∈ buf_list_head (ctx k) -> slab k' !! b = slab k !! b) /\
    log_bytes k' = log_bytes k ++ take (Z.to_nat w) user_buf /\
    forall size, log_size k + w < size ->
      full_read size k'
      = Some (SeqFile size (log_size k + w)
                (log_bytes k ++ take (Z.to_nat w) user_buf)).
Proof.
  intros Hk%reachable_inv Hn Hs -> Hw.
  assert (copied user_buf n <> 0%nat) as Hc by lia.
  pose proof (proc_write_appended mem_ok user_buf n pos k Hs (inv_lock k Hk) Hc) as Hrun.
  simpl in Hrun. rewrite Hrun.
  assert (step (Write mem_ok user_buf n pos) k
            (RWrite (Z.of_nat (copied user_buf n))
               (to_loff_t (pos + Z.of_nat (copied user_buf n)))) _) as Hstep
    by (by eapply step_write_append).
  pose proof (step_inv _ _ _ _ Hk Hstep) as Hk'.
  destruct (step_log_bytes _ _ _ _ Hk Hstep) as [Hbytes Hsize].
  destruct (step_head _ _ _ _ Hk Hstep) as [_ Hsame].
  simpl in Hbytes, Hsize.
  destruct (Z.ltb_spec 0 (Z.of_nat (copied user_buf n))); [|lia].
  rewrite Nat2Z.id in *.
  rewrite length_take_le in Hsize by apply copied_le.
  eexists _, _. split; [reflexivity|].
  split; [apply to_loff_t_small|]. split; [reflexivity|].
  split; [by apply inv_fresh_not_in_head|].
  split; [unfold entry_len; simpl; by rewrite lookup_insert_eq|].
  rewrite payload_written.
  split; [reflexivity|].
  split; [by rewrite length_take_le by apply copied_le|].
  split; [exact Hsame|]. split; [exact Hbytes|].
  intros size Hroom. rewrite full_read_fits; [|assumption|lia].
  by rewrite Hbytes, Hsize.
Qed.

Lemma write_appends_copied_prefix_witness :
  reachable (loaded []) /\ 1 <= 8 /\ served true 8 = true /\
  4 = Z.of_nat (copied [x61; x62; x63; x64] 8) /\ 1 <= 4 <= 8 /\
  exists a k',
    simple_context_proc_write true [x61; x62; x63; x64] 8 0 (loaded [])
    = Some ((4, to_loff_t (0 + 4)), k') /\
    (- 2 ^ 63 <= 0 + 4 <= SSIZE_MAX -> to_loff_t (0 + 4) = 0 + 4) /\
    buf_list_head (ctx k') = buf_list_head (ctx (loaded [])) ++ [a] /\
    (a ∉ buf_list_head (ctx (loaded []))) /\
    entry_len k' a = 4 /\
    payload k' a = take (Z.to_nat 4) [x61; x62; x63; x64] /\
    Z.of_nat (length (payload k' a)) = 4 /\
    (forall b, b ∈ buf_list_head (ctx (loaded [])) ->
               slab k' !! b = slab (loaded []) !! b) /\
    log_bytes k' = log_bytes (loaded []) ++ take (Z.to_nat 4) [x61; x62; x63; x64] /\
    forall size, log_size (loaded []) + 4 < size ->
      full_read size k'
      = Some (SeqFile size (log_size (loaded []) + 4)
                (log_bytes (loaded []) ++ take (Z.to_nat 4) [x61; x62; x63; x64])).
Proof.
  split; [apply reachable_loaded|]. split; [lia|]. split; [reflexivity|].
  split; [reflexivity|]. split; [lia|].
  apply (write_appends_copied_prefix (loaded []) true [x61; x62; x63; x64] 8 0 4);
    [apply reachable_loaded|lia|reflexivity|reflexivity|lia].
Defined.

(* ===================================================================== *)
(** ** Teardown *)
(* ===================================================================== *)

Lemma free_entries_spec l : forall k,
  NoDup l ->
  (forall a, a ∈ l -> is_Some (slab k !! a)) ->
  free_entries l k
  = Some (tt, Kernel (ctx k) (ctx_storage k) (ctx_freed k) (freed_all l (slab k))
                (procfs k) (trace k ++ map (fun a => EvKfree (PEntry a)) l)).
Proof.
  induction l as [|a l IH]; intros k Hnd Hlive.
  - simpl. run. rewrite app_nil_r. by destruct k.
  - apply NoDup_cons in Hnd as [Hnotin Hnd].
    destruct (Hlive a) as [o Ha]; [by left|].
    simpl. unfold kfree. run. rewrite Ha. run.
    rewrite IH; [|assumption|].
    + simpl. rewrite <- app_assoc. reflexivity.
    + intros b Hb. simpl. rewrite lookup_delete_ne; [apply Hlive; by right|].
      intros <-. by apply Hnotin.
Qed.

Lemma freed_all_dom l : forall s,
  dom (freed_all l s) = dom s ∖ list_to_set l.
Proof.
  induction l as [|a l IH]; intros s; simpl.
  - by rewrite difference_empty_L.
  - rewrite IH, dom_delete_L. apply set_eq. intros x.
    rewrite !elem_of_difference, elem_of_union, elem_of_singleton. tauto.
Qed.

Lemma freed_all_empty l s : dom s = list_to_set l -> freed_all l s = ∅.
Proof.
  intros Hdom. apply dom_empty_inv_L. rewrite freed_all_dom, Hdom.
  apply difference_diag_L.
Qed.

Lemma simple_context_term_spec k :
  inv k -> simple_context_term k = Some (tt, unloaded k).
Proof.
  intros Hk.
  unfold simple_context_term, term_with, g_ctx_init, simple_context_procfs_term,
    simple_context_buffer_list_term, proc_remove, mutex_destroy.
  simpl. run. rewrite (inv_proc k Hk). run.
  match goal with |- context [free_entries ?l ?k'] =>
    rewrite (free_entries_spec l k') end.
  - simpl. rewrite freed_all_empty by apply (inv_live k Hk).
    unfold unloaded. rewrite <- !app_assoc. reflexivity.
  - apply (inv_nodup k Hk).
  - simpl. intros a Ha. apply elem_of_dom. rewrite (inv_live k Hk).
    by apply elem_of_list_to_set.
Qed.

Lemma term_calls_kfree l :
  term_calls (map (fun a => EvKfree (PEntry a)) l) = [].
Proof. induction l as [|a l IH]; [done|]. exact IH. Qed.

Lemma term_calls_app tr1 tr2 :
  term_calls (tr1 ++ tr2) = term_calls tr1 ++ term_calls tr2.
Proof. apply omap_app. Qed.

Lemma map_fold_empty_memory k : slab k = ∅ -> entry_memory k = 0.
Proof. unfold entry_memory. intros ->. apply map_fold_empty. Qed.

(** C9: on a loaded module, teardown returns, calls the [term] of every
    stage once, last stage first (the procfs node is removed, then the
    buffer list is destroyed), frees every entry of the list, and leaves no
    entry in the slab: the memory held by entries is zero. *)
Theorem teardown_releases_every_entry k :
  reachable k ->
  exists k' evs,
    simple_driver_exit k = Some (tt, k') /\
    trace k' = trace k ++ evs /\
    evs = [EvTerm 1; EvProcRemove (Some "simple"%string); EvTerm 0]
          ++ map (fun a => EvKfree (PEntry a)) (buf_list_head (ctx k))
          ++ [EvMutexDestroy] /\
    term_calls evs = rev (seq 0 (length (g_ctx_init true))) /\
    slab k' = ∅ /\
    entry_memory k' = 0 /\
    ("simple"%string ∉ procfs k').
Proof.
  intros Hk%reachable_inv.
  eexists (unloaded k), _. split; [by apply simple_context_term_spec|].
  split; [reflexivity|]. split; [reflexivity|].
  split; [by rewrite !term_calls_app, term_calls_kfree|].
  split; [reflexivity|]. split; [by apply map_fold_empty_memory|].
  simpl. intros [Hne _]%list_elem_of_filter. by apply Hne.
Qed.

Lemma reachable_after_two_writes : reachable after_two_writes.
Proof.
  exists [], true, (loaded []), two_writes, [RWrite 5 5; RWrite 2 7].
  split; vm_compute; reflexivity.
Qed.

Lemma teardown_releases_every_entry_witness :
  reachable after_two_writes /\
  exists k' evs,
    simple_driver_exit after_two_writes = Some (tt, k') /\
    trace k' = trace after_two_writes ++ evs /\
    evs = [EvTerm 1; EvProcRemove (Some "simple"%string); EvTerm 0]
          ++ map (fun a => EvKfree (PEntry a)) (buf_list_head (ctx after_two_writes))
          ++ [EvMutexDestroy] /\
    term_calls evs = rev (seq 0 (length (g_ctx_init true))) /\
    slab k' = ∅ /\
    entry_memory k' = 0 /\
    ("simple"%string ∉ procfs k').
Proof.
  split; [apply reachable_after_two_writes|].
  exact (teardown_releases_every_entry after_two_writes reachable_after_two_writes).
Defined.

(* ===================================================================== *)
(** ** Failed initialization *)
(* ===================================================================== *)

(** C2, on the code: when procfs refuses the node, stage 1 is the stage
    that fails ([init] ran for stages 0 and 1 and the error is returned),
    and the unwinding calls [term] for stage 1 before stage 0: the loop
    has moved [i] past the failing stage before it tests [ret], and
    [simple_context_term_partial] starts one stage too high. *)
Theorem failed_init_runs_term_of_failed_stage nodes :
  exists k',
    simple_context_init false (module_load nodes) = Some (- ENOMEM, k') /\
    init_calls (trace k') = [0; 1]%nat /\
    term_calls (trace k') = [1; 0]%nat /\
    init_loop (g_ctx_init false) 0 0 (module_load nodes)
    = Some ((- ENOMEM, 2%nat),
            Kernel (Context None [] false) StaticStorage false ∅ nodes
              [EvInit 0; EvMutexInit; EvInit 1; EvProcCreate "simple" false]).
Proof.
  exists (load_failed nodes). split; [|split; [|split]]; reflexivity.
Qed.

(** C10: [simple_driver_init] always returns, and what it returns is what
    the [init] of the procfs stage returned, run after the buffer-list
    stage: an error exactly when the registration of the node fails, that
    is, when procfs refuses it or the name is taken. When it returns an
    error, the last thing [simple_context_init] did, after the [term]
    calls, was to hand the context to [kfree], although [simple_driver_init]
    passes [&g_ctx], an object in static storage. The context is then in
    freed state when the caller gets the error back. *)
Theorem failed_init_frees_static_context nodes proc_ok :
  ctx_storage (module_load nodes) = StaticStorage /\
  exists r k',
    simple_driver_init proc_ok (module_load nodes) = Some (r, k') /\
    ctx_storage k' = StaticStorage /\
    (exists k1 k2,
       trace k1 = [EvInit 0; EvMutexInit; EvInit 1] /\
       simple_context_procfs_init proc_ok k1 = Some (r, k2)) /\
    (r <> 0 <-> proc_ok = false \/ "simple"%string ∈ nodes) /\
    (r <> 0 <-> EvProcCreate "simple" false ∈ trace k') /\
    (r = 0 -> ctx_freed k' = false /\ (EvKfree PCtx ∉ trace k')) /\
    (r <> 0 ->
       r = - ENOMEM /\
       ctx_freed k' = true /\
       exists evs, trace k' = evs ++ [EvKfree PCtx] /\
                   (EvKfree PCtx ∉ evs) /\
                   term_calls evs <> []).
Proof.
  split; [reflexivity|].
  rewrite simple_driver_init_spec. destruct (registers proc_ok nodes) eqn:Hreg.
  - exists 0, (loaded nodes). split; [reflexivity|]. split; [reflexivity|].
    split.
    { eexists (Kernel (Context None [] false) StaticStorage false ∅ nodes
                 [EvInit 0; EvMutexInit; EvInit 1]), _.
      split; [reflexivity|].
      unfold simple_context_procfs_init, proc_create_data. run.
      unfold registers in Hreg. rewrite Hreg. reflexivity. }
    unfold registers in Hreg. apply andb_prop in Hreg as [-> Hfree%bool_decide_eq_true_1].
    split; [split; [done|intros [?|?]; [done|contradiction]]|].
    split.
    { split; [done|]. simpl. intros Hin.
      repeat (apply elem_of_cons in Hin as [?|Hin]; [done|]).
      by apply not_elem_of_nil in Hin. }
    split; [|done]. intros _. split; [reflexivity|].
    simpl. intros Hin. repeat (apply elem_of_cons in Hin as [?|Hin]; [done|]).
    by apply not_elem_of_nil in Hin.
  - exists (- ENOMEM), (load_failed nodes). split; [reflexivity|]. split; [reflexivity|].
    split.
    { eexists (Kernel (Context None [] false) StaticStorage false ∅ nodes
                 [EvInit 0; EvMutexInit; EvInit 1]), _.
      split; [reflexivity|].
      unfold simple_context_procfs_init, proc_create_data. run.
      unfold registers in Hreg. rewrite Hreg. reflexivity. }
    split.
    { split; [|done]. intros _. unfold registers in Hreg.
      apply andb_false_iff in Hreg as [->|Htaken%bool_decide_eq_false_1]; [by left|].
      right. destruct (decide ("simple"%string ∈ nodes)); [assumption|contradiction]. }
    split.
    { split; [|done]. intros _. simpl. do 3 apply list_elem_of_further.
      apply list_elem_of_here. }
    split; [done|]. intros _. split; [reflexivity|]. split; [reflexivity|].
    exists [EvInit 0; EvMutexInit; EvInit 1; EvProcCreate "simple" false;
            EvTerm 1; EvProcRemove None; EvTerm 0; EvMutexDestroy].
    split; [reflexivity|]. split; [|done].
    intros Hin. repeat (apply elem_of_cons in Hin as [?|Hin]; [done|]).
    by apply not_elem_of_nil in Hin.
Qed.

(* ===================================================================== *)
(** ** Invariant I1 *)
(* ===================================================================== *)

Lemma inv_entries_nonempty k : inv k -> entries_nonempty k.
Proof.
  intros Hk. eapply Forall_impl; [exact (inv_head_entries k Hk)|].
  intros a (sz & e & Ha & [[Hlen _] _]). eauto.
Qed.

(** C7: in every state a loaded module can reach, every entry of the list
    has [len >= 1]; every call (open, read, write, close) made in such a
    state returns, and the same holds in the state it leaves. *)
Theorem reachable_entries_nonempty k :
  reachable k ->
  entries_nonempty k /\
  forall o, exists r k',
    run_op o k = Some (r, k') /\ reachable k' /\ entries_nonempty k'.
Proof.
  intros Hreach. pose proof (reachable_inv k Hreach) as Hk.
  split; [by apply inv_entries_nonempty|].
  intros o. destruct (run_op_step o k Hk) as (r & k' & Hop & Hstep).
  exists r, k'. split; [assumption|].
  split; [|eapply inv_entries_nonempty, step_inv; eassumption].
  destruct Hreach as (nodes & proc_ok & k0 & os & rs & Hload & Hrun).
  exists nodes, proc_ok, k0, (os ++ [o]), (rs ++ [r]). split; [assumption|].
  clear -Hrun Hop. revert k0 rs Hrun.
  induction os as [|o' os IH]; intros k0 rs Hrun.
  - injection Hrun as <- <-. simpl. unfold mbind at 1, M_bind at 1. by rewrite Hop.
  - apply run_ops_cons in Hrun as (r' & k1 & rs' & Hop' & Hrun & ->).
    simpl. unfold mbind at 1, M_bind at 1. rewrite Hop'.
    unfold mbind at 1, M_bind at 1. by rewrite (IH k1 rs' Hrun).
Qed.

Lemma reachable_entries_nonempty_witness :
  reachable after_two_writes /\
  entries_nonempty after_two_writes /\
  forall o, exists r k',
    run_op o after_two_writes = Some (r, k') /\ reachable k' /\ entries_nonempty k'.
Proof.
  split; [apply reachable_after_two_writes|].
  exact (reachable_entries_nonempty after_two_writes reachable_after_two_writes).
Defined.

(* ===================================================================== *)
(** ** Lock discipline *)
(* ===================================================================== *)

Lemma transfers_unlocked_app held tr1 tr2 :
  transfers_unlocked held (tr1 ++ tr2)
  = transfers_unlocked held tr1 && transfers_unlocked (held_after held tr1) tr2.
Proof.
  revert held. induction tr1 as [|e tr1 IH]; intros held; simpl; [done|].
  by rewrite IH, andb_assoc.
Qed.

Lemma held_after_app held tr1 tr2 :
  held_after held (tr1 ++ tr2) = held_after (held_after held tr1) tr2.
Proof. apply foldl_app. Qed.

(** The records shown during a session are copied inside the kernel. *)
Lemma show_events_locked s v held :
  transfers_unlocked held (map (show_event s) v) = true /\
  held_after held (map (show_event s) v) = held.
Proof.
  induction v as [|a v [IH1 IH2]]; [done|]. simpl.
  rewrite andb_false_r. simpl. by split.
Qed.

(** The events of one call. *)
Lemma step_trace o k r k' :
  step o k r k' ->
  exists evs,
    trace k' = trace k ++ evs /\
    transfers_unlocked false evs = true /\
    held_after false evs = false.
Proof.
  intros Hstep. destruct Hstep; try (eexists; split; [reflexivity|done]).
  - exists []. by rewrite app_nil_r.
  - eexists. split; [reflexivity|].
    rewrite !transfers_unlocked_app, !held_after_app. simpl.
    destruct (show_events_locked (slab k) v true) as [-> ->]. done.
Qed.

Lemma reachable_trace k :
  reachable k ->
  transfers_unlocked false (trace k) = true /\ held_after false (trace k) = false.
Proof.
  intros (nodes & proc_ok & k0 & os & rs & Hload & Hrun).
  rewrite simple_driver_init_spec in Hload.
  destruct (registers proc_ok nodes); [|discriminate].
  injection Hload as <-.
  apply (run_ops_ind (fun k _ _ k' =>
           transfers_unlocked false (trace k) = true /\ held_after false (trace k) = false ->
           transfers_unlocked false (trace k') = true /\ held_after false (trace k') = false))
    with (os := os) (k := loaded nodes) (rs := rs); try done.
  - intros k1 o r k2 os' rs' k3 _ Hstep _ _ IH [H1 H2]. apply IH.
    destruct (step_trace _ _ _ _ Hstep) as (evs & -> & H3 & H4).
    rewrite transfers_unlocked_app, held_after_app, H1, H2. by split.
  - apply loaded_inv.
Qed.

(** C8: the mutex is never held across a transfer to or from user memory.
    In the whole history of a loaded module no such transfer happens while
    the mutex is held. A write allocates, copies from user memory, and only
    then, if it goes on, takes the mutex around [list_add_tail] alone. A read
    session holds the mutex around the [show] calls, which copy inside the
    kernel, and the reader gets the bytes after [stop] has released it. *)
Theorem lock_not_held_across_user_copy k :
  reachable k ->
  transfers_unlocked false (trace k) = true /\
  (forall mem_ok user_buf n pos, exists res k' a not_copied,
      simple_context_proc_write mem_ok user_buf n pos k = Some (res, k') /\
      (trace k' = trace k ++ [EvKzalloc (struct_size n) None] \/
       trace k' = trace k ++ [EvKzalloc (struct_size n) (Some a);
                              EvCopyFromUser n not_copied;
                              EvKfree (PEntry a)] \/
       trace k' = trace k ++ [EvKzalloc (struct_size n) (Some a);
                              EvCopyFromUser n not_copied;
                              EvMutexLock; EvListAddTail a; EvMutexUnlock])) /\
  (forall size pos, exists m pos' k' shows,
      seq_read_session size pos k = Some ((m, pos'), k') /\
      trace k' = trace k ++ [EvMutexLock] ++ shows
                         ++ [EvMutexUnlock; EvCopyToUser (count m)] /\
      Forall (fun e => exists n, e = EvSeqWrite n) shows).
Proof.
  intros Hreach. pose proof (reachable_inv k Hreach) as Hk.
  split; [apply (reachable_trace k Hreach)|]. split.
  - intros mem_ok user_buf n pos.
    destruct (served mem_ok n) eqn:Hs.
    + destruct (decide (copied user_buf n = 0%nat)) as [Hc|Hc].
      * rewrite (proc_write_nothing_copied _ _ _ _ _ Hs Hc).
        eexists _, _, _, _. split; [reflexivity|]. right. left. reflexivity.
      * rewrite (proc_write_appended _ _ _ _ _ Hs (inv_lock k Hk) Hc).
        eexists _, _, _, _. split; [reflexivity|]. right. right. reflexivity.
    + rewrite (proc_write_not_served _ _ _ _ _ Hs).
      eexists _, _, 0%nat, 0. split; [reflexivity|]. left. reflexivity.
  - intros size pos.
    rewrite (seq_read_session_spec size pos k (inv_lock k Hk) (inv_head_live k Hk)).
    eexists _, _, _, _. split; [reflexivity|]. split; [reflexivity|].
    apply Forall_forall. intros e (a & -> & _)%list_elem_of_fmap. eexists. reflexivity.
Qed.

Lemma lock_not_held_across_user_copy_witness :
  reachable after_two_writes /\
  transfers_unlocked false (trace after_two_writes) = true /\
  (forall mem_ok user_buf n pos, exists res k' a not_copied,
      simple_context_proc_write mem_ok user_buf n pos after_two_writes = Some (res, k') /\
      (trace k' = trace after_two_writes ++ [EvKzalloc (struct_size n) None] \/
       trace k' = trace after_two_writes ++ [EvKzalloc (struct_size n) (Some a);
                              EvCopyFromUser n not_copied;
                              EvKfree (PEntry a)] \/
       trace k' = trace after_two_writes ++ [EvKzalloc (struct_size n) (Some a);
                              EvCopyFromUser n not_copied;
                              EvMutexLock; EvListAddTail a; EvMutexUnlock])) /\
  (forall size pos, exists m pos' k' shows,
      seq_read_session size pos after_two_writes = Some ((m, pos'), k') /\
      trace k' = trace after_two_writes ++ [EvMutexLock] ++ shows
                         ++ [EvMutexUnlock; EvCopyToUser (count m)] /\
      Forall (fun e => exists n, e = EvSeqWrite n) shows).
Proof.
  split; [apply reachable_after_two_writes|].
  exact (lock_not_held_across_user_copy after_two_writes reachable_after_two_writes).
Defined.

(* ===================================================================== *)
(** ** Reads return the writes, in order *)
(* ===================================================================== *)

Lemma run_ops_log os k rs k' :
  inv k -> run_ops os k = Some (rs, k') ->
  length rs = length os /\
  log_bytes k' = log_bytes k ++ concat (zip_with recorded os rs).
Proof.
  intros Hk Hrun.
  apply (run_ops_ind (fun k os rs k' =>
           length rs = length os /\
           log_bytes k' = log_bytes k ++ concat (zip_with recorded os rs)))
    with (os := os) (k := k) (rs := rs); try assumption.
  - intros k1 _. by rewrite app_nil_r.
  - intros k1 o r k2 os' rs' k3 Hk1 Hstep _ _ [Hlen Hbytes].
    destruct (step_log_bytes _ _ _ _ Hk1 Hstep) as [Hb _].
    simpl. split; [by rewrite Hlen|]. by rewrite Hbytes, Hb, app_assoc.
Qed.

Lemma zip_with_recorded_app os1 os2 rs1 rs2 :
  length os1 = length rs1 ->
  concat (zip_with recorded (os1 ++ os2) (rs1 ++ rs2))
  = concat (zip_with recorded os1 rs1) ++ concat (zip_with recorded os2 rs2).
Proof.
  intros Hlen. rewrite zip_with_app by assumption. apply concat_app.
Qed.

(** C4: after any calls on a loaded module, a full read (one session from
    index 0, with room in the seq_file) returns, without overflow, the
    payloads of the entries in list order, one after the other; these are
    the bytes recorded by the calls in the order the calls completed. In
    particular, what a write has recorded comes before what a later write
    has recorded. *)
Theorem full_read_concatenates_in_write_order nodes proc_ok k0 os rs k size :
  simple_driver_init proc_ok (module_load nodes) = Some (0, k0) ->
  run_ops os k0 = Some (rs, k) ->
  log_size k < size ->
  exists m,
    full_read size k = Some m /\
    seq_has_overflowed m = false /\
    sbuf m = concat (map (payload k) (buf_list_head (ctx k))) /\
    sbuf m = concat (zip_with recorded os rs) /\
    forall os1 oA os2 oB os3 rs1 rA rs2 rB rs3,
      os = os1 ++ oA :: os2 ++ oB :: os3 ->
      rs = rs1 ++ rA :: rs2 ++ rB :: rs3 ->
      length os1 = length rs1 ->
      length os2 = length rs2 ->
      exists before between after,
        length before = length (concat (zip_with recorded os1 rs1)) /\
        sbuf m = before ++ recorded oA rA ++ between ++ recorded oB rB ++ after.
Proof.
  intros Hload Hrun Hsize.
  rewrite simple_driver_init_spec in Hload.
  destruct (registers proc_ok nodes); [|discriminate].
  injection Hload as <-.
  pose proof (run_ops_inv _ _ _ _ (loaded_inv nodes) Hrun) as Hk.
  destruct (run_ops_log _ _ _ _ (loaded_inv nodes) Hrun) as [Hlen Hbytes].
  change (log_bytes (loaded nodes)) with (@nil byte) in Hbytes. simpl in Hbytes.
  exists (SeqFile size (log_size k) (log_bytes k)).
  split; [by apply full_read_fits|].
  split; [unfold seq_has_overflowed; simpl; apply Z.eqb_neq; lia|].
  split; [reflexivity|]. split; [exact Hbytes|].
  intros os1 oA os2 oB os3 rs1 rA rs2 rB rs3 -> -> Hl1 Hl2. simpl.
  rewrite Hbytes.
  rewrite zip_with_recorded_app by assumption. simpl.
  rewrite zip_with_recorded_app by assumption. simpl.
  eexists _, _, _. split; [reflexivity|]. reflexivity.
Qed.

Lemma full_read_concatenates_in_write_order_witness :
  simple_driver_init true (module_load []) = Some (0, loaded []) /\
  run_ops two_writes (loaded []) = Some ([RWrite 5 5; RWrite 2 7], after_two_writes) /\
  log_size after_two_writes < 4096 /\
  exists m,
    full_read 4096 after_two_writes = Some m /\
    seq_has_overflowed m = false /\
    sbuf m = concat (map (payload after_two_writes)
                       (buf_list_head (ctx after_two_writes))) /\
    sbuf m = concat (zip_with recorded two_writes [RWrite 5 5; RWrite 2 7]) /\
    forall os1 oA os2 oB os3 rs1 rA rs2 rB rs3,
      two_writes = os1 ++ oA :: os2 ++ oB :: os3 ->
      [RWrite 5 5; RWrite 2 7] = rs1 ++ rA :: rs2 ++ rB :: rs3 ->
      length os1 = length rs1 ->
      length os2 = length rs2 ->
      exists before between after,
        length before = length (concat (zip_with recorded os1 rs1)) /\
        sbuf m = before ++ recorded oA rA ++ between ++ recorded oB rB ++ after.
Proof.
  split; [reflexivity|]. split; [vm_compute; reflexivity|].
  split; [vm_compute; reflexivity|].
  apply (full_read_concatenates_in_write_order [] true (loaded []) two_writes
           [RWrite 5 5; RWrite 2 7] after_two_writes 4096);
    [reflexivity|vm_compute; reflexivity|vm_compute; reflexivity].
Defined.

(* ===================================================================== *)
(** ** The scenarios of the specification, run on the model *)
(* ===================================================================== *)

Example scenario_hello :
  write_returns true [x68; x65; x6c; x6c; x6f] 5 0 (loaded []) = Some 5 /\
  (k ← snd <$> run_ops [Write true [x68; x65; x6c; x6c; x6f] 5 0] (loaded []);
   read_all k) = Some [x68; x65; x6c; x6c; x6f].
Proof. split; vm_compute; reflexivity. Qed.

Example scenario_two_writes :
  read_all after_two_writes = Some [x68; x65; x6c; x6c; x6f; x61; x62].
Proof. vm_compute. reflexivity. Qed.

Example scenario_empty_write :
  write_returns true [] 0 0 (loaded []) = Some (- EFAULT) /\
  write_returns false [] 0 0 (loaded []) = Some 0 /\
  (k ← snd <$> run_ops [Write true [] 0 0] (loaded []); read_all k) = Some [].
Proof. repeat split; vm_compute; reflexivity. Qed.

Example scenario_unreadable_buffer :
  write_returns true [] 16 7 after_two_writes = Some (- EFAULT) /\
  (k ← snd <$> run_ops [Write true [] 16 7] after_two_writes; read_all k)
  = read_all after_two_writes.
Proof. split; vm_compute; reflexivity. Qed.

Example scenario_partial_fault :
  write_returns true [x77; x78; x79; x7a] 8 7 after_two_writes = Some 4 /\
  (k ← snd <$> run_ops [Write true [x77; x78; x79; x7a] 8 7] after_two_writes;
   read_all k)
  = Some [x68; x65; x6c; x6c; x6f; x61; x62; x77; x78; x79; x7a].
Proof. split; vm_compute; reflexivity. Qed.

Example scenario_registration_fails :
  (fun '(r, k) => (r, procfs k, term_calls (trace k), ctx_freed k))
    <$> simple_driver_init false (module_load [])
  = Some (- ENOMEM, [], [1; 0]%nat, true).
Proof. vm_compute. reflexivity. Qed.


(* ===================================================================== *)
(** ** More on [simple_context_proc_write] *)
(* ===================================================================== *)

(** A write on a kernel that meets the invariant returns, as one of the
    three write steps. *)
Lemma proc_write_step k mem_ok user_buf n pos :
  inv k ->
  exists r pos' k',
    simple_context_proc_write mem_ok user_buf n pos k = Some ((r, pos'), k') /\
    step (Write mem_ok user_buf n pos) k (RWrite r pos') k'.
Proof.
  intros Hk.
  destruct (run_op_step (Write mem_ok user_buf n pos) k Hk) as (res & k' & Hop & Hstep).
  unfold run_op in Hop. unfold mbind at 1, M_bind at 1 in Hop.
  destruct (simple_context_proc_write mem_ok user_buf n pos k)
    as [[[r pos'] k1]|]; [|discriminate].
  injection Hop as <- <-. by exists r, pos', k1.
Qed.

(** X1: whatever its arguments, a write on a loaded module returns 0 (no
    memory), [-EFAULT] (nothing copied) or a count between 1 and the length
    asked for, never more than the user buffer could give; the file
    position moves only in the last case, by the count returned. *)
Theorem write_return_range k mem_ok user_buf n pos :
  reachable k ->
  exists r pos' k',
    simple_context_proc_write mem_ok user_buf n pos k = Some ((r, pos'), k') /\
    ((r = 0 /\ pos' = pos) \/
     (r = - EFAULT /\ pos' = pos) \/
     (1 <= r <= n /\ r <= Z.of_nat (length user_buf) /\ pos' = to_loff_t (pos + r))).
Proof.
  intros Hk%reachable_inv.
  destruct (proc_write_step k mem_ok user_buf n pos Hk) as (r & pos' & k' & Hrun & Hstep).
  exists r, pos', k'. split; [assumption|].
  inversion Hstep; subst.
  - by left.
  - right. by left.
  - right. right.
    match goal with H : copied _ _ <> 0%nat |- _ => pose proof (copied_pos _ _ H) as [? ?] end.
    pose proof (copied_le user_buf n). split; [lia|]. split; [lia|reflexivity].
Qed.

Lemma write_return_range_witness :
  reachable after_two_writes /\
  exists r pos' k',
    simple_context_proc_write true [x77; x78; x79] 8 7 after_two_writes
    = Some ((r, pos'), k') /\
    ((r = 0 /\ pos' = 7) \/
     (r = - EFAULT /\ pos' = 7) \/
     (1 <= r <= 8 /\ r <= Z.of_nat (length [x77; x78; x79]) /\ pos' = to_loff_t (7 + r))).
Proof.
  split; [apply reachable_after_two_writes|].
  exact (write_return_range after_two_writes true [x77; x78; x79] 8 7
           reachable_after_two_writes).
Defined.

(** X2: where the data of a write goes does not depend on the file
    position it is given: two writes that differ in [pos] only return the
    same count and leave the same list, the same entries and the same
    trace; the list they leave is the old list, followed by one new node
    when the count is positive. *)
Theorem write_ignores_position k mem_ok user_buf n pos1 pos2 :
  reachable k ->
  exists r p1 p2 k1 k2,
    simple_context_proc_write mem_ok user_buf n pos1 k = Some ((r, p1), k1) /\
    simple_context_proc_write mem_ok user_buf n pos2 k = Some ((r, p2), k2) /\
    k1 = k2 /\
    buf_list_head (ctx k1)
    = buf_list_head (ctx k) ++ (if 0 <? r then [fresh (dom (slab k))] else []).
Proof.
  intros Hk%reachable_inv.
  destruct (served mem_ok n) eqn:Hs.
  - destruct (decide (copied user_buf n = 0%nat)) as [Hc|Hc].
    + rewrite !(proc_write_nothing_copied _ _ _ _ _ Hs Hc).
      eexists _, _, _, _, _. split; [reflexivity|]. split; [reflexivity|].
      split; [reflexivity|]. simpl. by rewrite app_nil_r.
    + rewrite !(proc_write_appended _ _ _ _ _ Hs (inv_lock k Hk) Hc).
      eexists _, _, _, _, _. split; [reflexivity|]. split; [reflexivity|].
      split; [reflexivity|]. simpl.
      pose proof (copied_pos _ _ Hc) as [Hpos _].
      by destruct (Z.ltb_spec 0 (Z.of_nat (copied user_buf n))); [|lia].
  - rewrite !(proc_write_not_served _ _ _ _ _ Hs).
    eexists _, _, _, _, _. split; [reflexivity|]. split; [reflexivity|].
    split; [reflexivity|]. simpl. by rewrite app_nil_r.
Qed.

Lemma write_ignores_position_witness :
  reachable after_two_writes /\
  exists r p1 p2 k1 k2,
    simple_context_proc_write true [x77; x78] 2 0 after_two_writes = Some ((r, p1), k1) /\
    simple_context_proc_write true [x77; x78] 2 1000 after_two_writes = Some ((r, p2), k2) /\
    k1 = k2 /\
    buf_list_head (ctx k1)
    = buf_list_head (ctx after_two_writes)
      ++ (if 0 <? r then [fresh (dom (slab after_two_writes))] else []).
Proof.
  split; [apply reachable_after_two_writes|].
  exact (write_ignores_position after_two_writes true [x77; x78] 2 0 1000
           reachable_after_two_writes).
Defined.

(* ===================================================================== *)
(** ** Invariants of the slab *)
(* ===================================================================== *)

(** Induction over the states of a loaded module. *)
Lemma reachable_ind (Q : kernel -> Prop) :
  (forall nodes, Q (loaded nodes)) ->
  (forall o k r k', inv k -> Q k -> step o k r k' -> Q k') ->
  forall k, reachable k -> Q k.
Proof.
  intros Hload Hstep k (nodes & proc_ok & k0 & os & rs & Hinit & Hrun).
  rewrite simple_driver_init_spec in Hinit.
  destruct (registers proc_ok nodes); [|discriminate].
  injection Hinit as <-.
  apply (run_ops_ind (fun k _ _ k' => Q k -> Q k'))
    with (os := os) (k := loaded nodes) (rs := rs); try done.
  - intros k1 o r k2 os' rs' k3 Hk1 Hs _ _ IH HQ. apply IH. by eapply Hstep.
  - apply loaded_inv.
Qed.

Lemma written_entry_layout mem_ok user_buf n :
  served mem_ok n = true ->
  copied user_buf n <> 0%nat ->
  entry_layout (written_entry user_buf n (copied user_buf n)).
Proof.
  intros Hs Hc. pose proof (copied_pos _ _ Hc) as [Hpos Hmin].
  pose proof (copied_le user_buf n) as Hle.
  unfold served in Hs. apply andb_prop in Hs as [_ [Hsz Hn]%struct_size_served].
  unfold entry_layout, written_entry. simpl. rewrite Hsz, Nat2Z.id.
  replace (sizeof_entry + n - sizeof_entry) with n by lia.
  rewrite length_app, length_take_le, length_drop, length_replicate by assumption.
  split; [lia|].
  rewrite drop_app_length' by (by rewrite length_take_le).
  rewrite drop_replicate. f_equal. lia.
Qed.

Lemma step_layout o k r k' :
  step o k r k' ->
  map_Forall (fun _ o => entry_layout o) (slab k) ->
  map_Forall (fun _ o => entry_layout o) (slab k').
Proof.
  intros Hstep Hall. destruct Hstep; try assumption.
  subst. simpl. apply map_Forall_insert_2; [|assumption].
  by eapply written_entry_layout.
Qed.

Lemma reachable_layout k :
  reachable k -> map_Forall (fun _ o => entry_layout o) (slab k).
Proof.
  revert k.
  apply (reachable_ind (fun k => map_Forall (fun _ o => entry_layout o) (slab k))).
  - intros nodes. apply map_Forall_empty.
  - intros o k1 r k2 _ HQ Hstep. by eapply step_layout.
Qed.

(** X3: in every state a loaded module can reach, each entry of the list
    was allocated with room for the header and its whole buffer, [len] does
    not exceed the buffer, so that [show] emits exactly [len] bytes, all of
    them read inside the allocation, and the bytes of the buffer past [len]
    are zero. *)
Theorem reachable_entries_within_allocation k :
  reachable k ->
  Forall (fun a => exists sz e,
            slab k !! a = Some (sz, e) /\
            sz = sizeof_entry + Z.of_nat (length (buf e)) /\
            1 <= len e <= Z.of_nat (length (buf e)) /\
            Z.of_nat (length (payload k a)) = len e /\
            drop (Z.to_nat (len e)) (buf e)
            = replicate (length (buf e) - Z.to_nat (len e)) x00)
    (buf_list_head (ctx k)).
Proof.
  intros Hreach. pose proof (reachable_inv k Hreach) as Hk.
  pose proof (reachable_layout k Hreach) as Hlay.
  eapply Forall_impl; [exact (inv_head_entries k Hk)|].
  intros a (sz & e & Ha & [Hlen _]). simpl in Hlen.
  destruct (Hlay a (sz, e) Ha) as [Hsz Hzero]. simpl in Hsz, Hzero.
  exists sz, e. split; [assumption|]. split; [assumption|]. split; [assumption|].
  split; [|assumption].
  unfold payload. rewrite Ha. rewrite length_take_le; lia.
Qed.

Lemma reachable_entries_within_allocation_witness :
  reachable after_two_writes /\
  Forall (fun a => exists sz e,
            slab after_two_writes !! a = Some (sz, e) /\
            sz = sizeof_entry + Z.of_nat (length (buf e)) /\
            1 <= len e <= Z.of_nat (length (buf e)) /\
            Z.of_nat (length (payload after_two_writes a)) = len e /\
            drop (Z.to_nat (len e)) (buf e)
            = replicate (length (buf e) - Z.to_nat (len e)) x00)
    (buf_list_head (ctx after_two_writes)).
Proof.
  split; [apply reachable_after_two_writes|].
  exact (reachable_entries_within_allocation after_two_writes reachable_after_two_writes).
Defined.

Lemma entry_memory_insert (s : gmap addr (Z * simple_buffer_entry)) a o :
  s !! a = None ->
  map_fold (fun _ (o : Z * simple_buffer_entry) acc => fst o + acc) 0 (<[a := o]> s)
  = fst o + map_fold (fun _ (o : Z * simple_buffer_entry) acc => fst o + acc) 0 s.
Proof.
  intros Ha. apply (map_fold_insert_L (fun _ (o : Z * simple_buffer_entry) acc => fst o + acc)).
  - intros. lia.
  - assumption.
Qed.

Lemma alloc_size_stable k k' l :
  (forall b, b ∈ l -> slab k' !! b = slab k !! b) ->
  map (alloc_size k') l = map (alloc_size k) l.
Proof.
  intros Hl. apply map_ext_in. intros b Hb%list_elem_of_In.
  unfold alloc_size. by rewrite Hl.
Qed.

(** What a step does to the slab memory held by entries. *)
Lemma step_entry_memory o k r k' :
  inv k -> step o k r k' ->
  entry_memory k'
  = entry_memory k
    + match o, r with
      | Write _ _ n _, RWrite w _ => if 0 <? w then sizeof_entry + n else 0
      | _, _ => 0
      end.
Proof.
  intros Hk Hstep. destruct Hstep; simpl; rewrite ?Z.add_0_r; try reflexivity.
  subst. pose proof (copied_pos _ _ H1) as [Hpos _].
  destruct (Z.ltb_spec 0 (Z.of_nat (copied user_buf n))); [|lia].
  unfold entry_memory. simpl. rewrite entry_memory_insert by apply fresh_slab_None.
  simpl. unfold served in H. apply andb_prop in H as [_ [-> _]%struct_size_served]. lia.
Qed.

(** X4: no write leaks an entry. In every state a loaded module can reach
    the list mutex is free, no node is linked twice, the live entries are
    exactly the nodes of the list, and the slab memory held by entries is
    the sum of what was asked for the nodes of the list. *)
Theorem reachable_no_leak k :
  reachable k ->
  buf_list_lock (ctx k) = false /\
  NoDup (buf_list_head (ctx k)) /\
  dom (slab k) = list_to_set (buf_list_head (ctx k)) /\
  entry_memory k = foldr Z.add 0 (map (alloc_size k) (buf_list_head (ctx k))).
Proof.
  intros Hreach. pose proof (reachable_inv k Hreach) as Hk.
  split; [apply (inv_lock k Hk)|]. split; [apply (inv_nodup k Hk)|].
  split; [apply (inv_live k Hk)|].
  revert k Hreach Hk. apply (reachable_ind (fun k => inv k ->
    entry_memory k = foldr Z.add 0 (map (alloc_size k) (buf_list_head (ctx k))))).
  - intros nodes _. reflexivity.
  - intros o k r k' Hk HQ Hstep _.
    rewrite (step_entry_memory o k r k' Hk Hstep), (HQ Hk).
    destruct (step_head o k r k' Hk Hstep) as [Hhead Hsame].
    rewrite Hhead, map_app, foldr_app, (alloc_size_stable k k' _ Hsame).
    rewrite (foldr_add_init _ (foldr _ _ _)). f_equal.
    destruct Hstep; simpl; try reflexivity.
    subst. pose proof (copied_pos _ _ H1) as [Hpos _].
    destruct (Z.ltb_spec 0 (Z.of_nat (copied user_buf n))); [|lia].
    simpl. unfold alloc_size. simpl. rewrite lookup_insert_eq. simpl.
    unfold served in H. apply andb_prop in H as [_ [-> _]%struct_size_served]. lia.
Qed.

Lemma reachable_no_leak_witness :
  reachable after_two_writes /\
  buf_list_lock (ctx after_two_writes) = false /\
  NoDup (buf_list_head (ctx after_two_writes)) /\
  dom (slab after_two_writes) = list_to_set (buf_list_head (ctx after_two_writes)) /\
  entry_memory after_two_writes
  = foldr Z.add 0 (map (alloc_size after_two_writes) (buf_list_head (ctx after_two_writes))).
Proof.
  split; [apply reachable_after_two_writes|].
  exact (reachable_no_leak after_two_writes reachable_after_two_writes).
Defined.

(** X5: a write that returns a positive count holds slab memory for the
    header and for all [n] bytes asked for, also when fewer bytes were
    copied; a write that returns 0 or an error holds none. *)
Theorem write_memory_cost k mem_ok user_buf n pos :
  reachable k ->
  exists r pos' k',
    simple_context_proc_write mem_ok user_buf n pos k = Some ((r, pos'), k') /\
    entry_memory k' = entry_memory k + (if 0 <? r then sizeof_entry + n else 0).
Proof.
  intros Hk%reachable_inv.
  destruct (proc_write_step k mem_ok user_buf n pos Hk) as (r & pos' & k' & Hrun & Hstep).
  exists r, pos', k'. split; [assumption|].
  exact (step_entry_memory _ _ _ _ Hk Hstep).
Qed.

Lemma write_memory_cost_witness :
  reachable after_two_writes /\
  exists r pos' k',
    simple_context_proc_write true [x77; x78; x79] 8 7 after_two_writes
    = Some ((r, pos'), k') /\
    entry_memory k' = entry_memory after_two_writes + (if 0 <? r then sizeof_entry + 8 else 0).
Proof.
  split; [apply reachable_after_two_writes|].
  exact (write_memory_cost after_two_writes true [x77; x78; x79] 8 7
           reachable_after_two_writes).
Defined.

(* ===================================================================== *)
(** ** The log only grows *)
(* ===================================================================== *)

Lemma step_procfs o k r k' :
  step o k r k' ->
  procfs k' = procfs k /\ proc_entry (ctx k') = proc_entry (ctx k) /\
  ctx_storage k' = ctx_storage k /\ ctx_freed k' = ctx_freed k.
Proof. intros Hstep. by destruct Hstep. Qed.

Lemma step_appended_length o k r k' :
  step o k r k' ->
  forall os rs,
    positive_writes (o :: os) (r :: rs)
    = (length (appended k o r) + positive_writes os rs)%nat.
Proof.
  intros Hstep os rs. destruct Hstep; simpl; try reflexivity.
  by destruct (0 <? Z.of_nat w).
Qed.

Lemma run_ops_head os k rs k' :
  inv k -> run_ops os k = Some (rs, k') ->
  exists new,
    buf_list_head (ctx k') = buf_list_head (ctx k) ++ new /\
    length new = positive_writes os rs /\
    (forall b, b ∈ buf_list_head (ctx k) -> slab k' !! b = slab k !! b) /\
    procfs k' = procfs k.
Proof.
  intros Hk Hrun.
  apply (run_ops_ind (fun k os rs k' =>
           exists new,
             buf_list_head (ctx k') = buf_list_head (ctx k) ++ new /\
             length new = positive_writes os rs /\
             (forall b, b ∈ buf_list_head (ctx k) -> slab k' !! b = slab k !! b) /\
             procfs k' = procfs k))
    with (os := os) (k := k) (rs := rs); try assumption.
  - intros k1 _. exists []. by rewrite app_nil_r.
  - intros k1 o r k2 os' rs' k3 Hk1 Hstep _ _ (new & Hhead & Hlen & Hsame & Hproc).
    destruct (step_head _ _ _ _ Hk1 Hstep) as [Hhead1 Hsame1].
    destruct (step_procfs _ _ _ _ Hstep) as [Hproc1 _].
    exists (appended k1 o r ++ new).
    split; [by rewrite Hhead, Hhead1, app_assoc|].
    split; [by rewrite length_app, Hlen, (step_appended_length _ _ _ _ Hstep)|].
    split; [|by rewrite Hproc, Hproc1].
    intros b Hb. rewrite Hsame; [by apply Hsame1|].
    rewrite Hhead1. apply elem_of_app. by left.
Qed.

(** X6: no sequence of calls removes, reorders or changes an entry. After
    any calls on a loaded module the list is the old list followed by one
    node for each write that returned a positive count, the old entries are
    what they were, and the bytes of the log are the old bytes followed by
    what the calls recorded; procfs is not touched. *)
Theorem calls_only_append k os rs k' :
  reachable k ->
  run_ops os k = Some (rs, k') ->
  exists new,
    buf_list_head (ctx k') = buf_list_head (ctx k) ++ new /\
    length new = positive_writes os rs /\
    (forall b, b ∈ buf_list_head (ctx k) -> slab k' !! b = slab k !! b) /\
    log_bytes k' = log_bytes k ++ concat (zip_with recorded os rs) /\
    procfs k' = procfs k.
Proof.
  intros Hk%reachable_inv Hrun.
  destruct (run_ops_head os k rs k' Hk Hrun) as (new & Hhead & Hlen & Hsame & Hproc).
  destruct (run_ops_log os k rs k' Hk Hrun) as [_ Hbytes].
  by exists new.
Qed.

Lemma run_more_calls :
  run_ops more_calls after_two_writes = Some (more_results, after_more_calls).
Proof. vm_compute. reflexivity. Qed.

Lemma calls_only_append_witness :
  reachable after_two_writes /\
  run_ops more_calls after_two_writes = Some (more_results, after_more_calls) /\
  exists new,
    buf_list_head (ctx after_more_calls) = buf_list_head (ctx after_two_writes) ++ new /\
    length new = positive_writes more_calls more_results /\
    (forall b, b ∈ buf_list_head (ctx after_two_writes) ->
               slab after_more_calls !! b = slab after_two_writes !! b) /\
    log_bytes after_more_calls
    = log_bytes after_two_writes ++ concat (zip_with recorded more_calls more_results) /\
    procfs after_more_calls = procfs after_two_writes.
Proof.
  split; [apply reachable_after_two_writes|]. split; [apply run_more_calls|].
  exact (calls_only_append after_two_writes more_calls more_results after_more_calls
           reachable_after_two_writes run_more_calls).
Defined.

(* ===================================================================== *)
(** ** Read sessions from any index *)
(* ===================================================================== *)

Lemma advance_small n : forall pos,
  - 2 ^ 63 <= pos -> pos + Z.of_nat n <= SSIZE_MAX ->
  advance n pos = pos + Z.of_nat n.
Proof.
  induction n as [|n IH]; intros pos Hlo Hhi; simpl; [lia|].
  rewrite to_loff_t_small by lia. rewrite IH; lia.
Qed.

Lemma drop_total_le k l : forall n,
  Forall (fun a => 0 <= entry_len k a /\ is_Some (slab k !! a)) l ->
  foldr Z.add 0 (map (entry_len k) (drop n l)) <= foldr Z.add 0 (map (entry_len k) l).
Proof.
  induction l as [|a l IH]; intros n Hl; [by destruct n|].
  apply Forall_cons in Hl as [[Ha _] Hl]. destruct n as [|n]; simpl; [lia|].
  specialize (IH n Hl). lia.
Qed.

Lemma session_nodes_lens k pos :
  inv k ->
  Forall (fun a => 0 <= entry_len k a /\ is_Some (slab k !! a))
    (session_nodes (buf_list_head (ctx k)) pos) /\
  foldr Z.add 0 (map (entry_len k) (session_nodes (buf_list_head (ctx k)) pos))
  <= log_size k.
Proof.
  intros Hk. pose proof (inv_head_lens k Hk) as Hl.
  unfold session_nodes. destruct (pos <? 0).
  - split; [constructor|]. simpl. by apply total_len_nonneg.
  - split; [by apply Forall_drop|by apply drop_total_le].
Qed.

(** What a session with room in its buffer collects, from any index. *)
Lemma seq_read_session_fits size pos k :
  inv k -> log_size k < size ->
  let v := session_nodes (buf_list_head (ctx k)) pos in
  let total := foldr Z.add 0 (map (entry_len k) v) in
  let m := SeqFile size total (concat (map (payload k) v)) in
  seq_read_session size pos k
  = Some ((m, advance (length v) pos),
          add_trace ([EvMutexLock] ++ map (show_event (slab k)) v
                     ++ [EvMutexUnlock; EvCopyToUser total]) k).
Proof.
  intros Hk Hsize. cbv zeta.
  destruct (session_nodes_lens k pos Hk) as [Hlens Hle].
  rewrite (seq_read_session_spec size pos k (inv_lock k Hk) (inv_head_live k Hk)).
  cbv zeta. rewrite (shown_fits k); [reflexivity|assumption|simpl; lia].
Qed.

(** X7: the position of a read is an index into the list of entries, not a
    byte offset. With room in the seq_file, a session from index [pos]
    returns the payloads of the entries from that index on, and ends at the
    index one past the last entry; from an index at or past the end of the
    list, or from a negative one, it returns nothing and leaves the index as
    it was. The session leaves the list and the entries untouched. *)
Theorem read_session_from_index k size pos :
  reachable k ->
  log_size k < size ->
  exists m pos' k',
    seq_read_session size pos k = Some ((m, pos'), k') /\
    ctx k' = ctx k /\ slab k' = slab k /\
    seq_has_overflowed m = false /\
    (0 <= pos ->
       sbuf m = concat (map (payload k) (drop (Z.to_nat pos) (buf_list_head (ctx k))))) /\
    (0 <= pos <= Z.of_nat (length (buf_list_head (ctx k))) ->
       Z.of_nat (length (buf_list_head (ctx k))) <= SSIZE_MAX ->
       pos' = Z.of_nat (length (buf_list_head (ctx k)))) /\
    (pos < 0 \/ Z.of_nat (length (buf_list_head (ctx k))) <= pos ->
       sbuf m = [] /\ pos' = pos).
Proof.
  intros Hk%reachable_inv Hsize.
  pose proof (seq_read_session_fits size pos k Hk Hsize) as Hrun. simpl in Hrun.
  destruct (session_nodes_lens k pos Hk) as [Hlens Hle].
  pose proof (total_len_nonneg k _ Hlens) as Hnn.
  eexists _, _, _. split; [exact Hrun|]. split; [reflexivity|]. split; [reflexivity|].
  split; [unfold seq_has_overflowed; simpl; apply Z.eqb_neq; lia|].
  unfold session_nodes. split; [|split].
  - intros Hpos. simpl. by destruct (Z.ltb_spec pos 0); [lia|].
  - intros Hpos Hmax. destruct (Z.ltb_spec pos 0); [lia|].
    rewrite length_drop. rewrite advance_small; unfold SSIZE_MAX in *; lia.
  - intros [Hneg|Hpast].
    + destruct (Z.ltb_spec pos 0); [|lia]. by split.
    + destruct (Z.ltb_spec pos 0); [by split|].
      rewrite drop_ge by lia. by split.
Qed.

Lemma read_session_from_index_witness :
  reachable after_two_writes /\
  log_size after_two_writes < 4096 /\
  exists m pos' k',
    seq_read_session 4096 1 after_two_writes = Some ((m, pos'), k') /\
    ctx k' = ctx after_two_writes /\ slab k' = slab after_two_writes /\
    seq_has_overflowed m = false /\
    (0 <= 1 ->
       sbuf m = concat (map (payload after_two_writes)
                          (drop (Z.to_nat 1) (buf_list_head (ctx after_two_writes))))) /\
    (0 <= 1 <= Z.of_nat (length (buf_list_head (ctx after_two_writes))) ->
       Z.of_nat (length (buf_list_head (ctx after_two_writes))) <= SSIZE_MAX ->
       pos' = Z.of_nat (length (buf_list_head (ctx after_two_writes)))) /\
    (1 < 0 \/ Z.of_nat (length (buf_list_head (ctx after_two_writes))) <= 1 ->
       sbuf m = [] /\ pos' = 1).
Proof.
  split; [apply reachable_after_two_writes|]. split; [vm_compute; reflexivity|].
  apply (read_session_from_index after_two_writes 4096 1);
    [apply reachable_after_two_writes|vm_compute; reflexivity].
Defined.

(** X8: reads resume. A reader that has reached the end of the list, at
    index [length list], and comes back after further calls gets, from that
    index, exactly the bytes those calls recorded, in order. *)
Theorem read_resumes_after_calls k os rs k' size :
  reachable k ->
  run_ops os k = Some (rs, k') ->
  log_size k' < size ->
  exists m pos' k'',
    seq_read_session size (Z.of_nat (length (buf_list_head (ctx k)))) k'
    = Some ((m, pos'), k'') /\
    seq_has_overflowed m = false /\
    sbuf m = concat (zip_with recorded os rs).
Proof.
  intros Hk%reachable_inv Hrun Hsize.
  pose proof (run_ops_inv _ _ _ _ Hk Hrun) as Hk'.
  destruct (run_ops_head os k rs k' Hk Hrun) as (new & Hhead & _ & Hsame & _).
  destruct (run_ops_log os k rs k' Hk Hrun) as [_ Hbytes].
  pose proof (seq_read_session_fits size (Z.of_nat (length (buf_list_head (ctx k)))) k'
                Hk' Hsize) as Hsession. simpl in Hsession.
  destruct (session_nodes_lens k' (Z.of_nat (length (buf_list_head (ctx k)))) Hk')
    as [Hlens Hle].
  pose proof (total_len_nonneg k' _ Hlens) as Hnn.
  eexists _, _, _. split; [exact Hsession|].
  split; [unfold seq_has_overflowed; simpl; apply Z.eqb_neq; lia|]. simpl.
  unfold session_nodes.
  destruct (Z.ltb_spec (Z.of_nat (length (buf_list_head (ctx k)))) 0); [lia|].
  rewrite Nat2Z.id, Hhead, drop_app_length.
  unfold log_bytes in Hbytes. rewrite Hhead, map_app, concat_app in Hbytes.
  destruct (payload_stable k k' _ Hsame) as [Hpay _]. rewrite Hpay in Hbytes.
  by apply app_inv_head in Hbytes.
Qed.

Lemma read_resumes_after_calls_witness :
  reachable after_two_writes /\
  run_ops more_calls after_two_writes = Some (more_results, after_more_calls) /\
  log_size after_more_calls < 4096 /\
  exists m pos' k'',
    seq_read_session 4096 (Z.of_nat (length (buf_list_head (ctx after_two_writes))))
      after_more_calls
    = Some ((m, pos'), k'') /\
    seq_has_overflowed m = false /\
    sbuf m = concat (zip_with recorded more_calls more_results).
Proof.
  split; [apply reachable_after_two_writes|]. split; [apply run_more_calls|].
  split; [vm_compute; reflexivity|].
  apply (read_resumes_after_calls after_two_writes more_calls more_results
           after_more_calls 4096);
    [apply reachable_after_two_writes|apply run_more_calls|vm_compute; reflexivity].
Defined.

(* ===================================================================== *)
(** ** The staged loop, over any table *)
(* ===================================================================== *)

(** Where the [for] loop of [simple_context_init] stops: after the whole
    table when every [init] returned 0, and otherwise right after the first
    [init] that returned non-zero, with [i] already one past that stage. *)
Lemma init_loop_exit rest : forall i k r j k',
  init_loop rest i 0 k = Some ((r, j), k') ->
  (r = 0 /\ j = (i + length rest)%nat) \/
  (r <> 0 /\ exists n s f k1,
      j = S (i + n) /\ rest !! n = Some s /\ init s = Some f /\
      f (log_event (EvInit (i + n)) k1) = Some (r, k')).
Proof.
  induction rest as [|s rest IH]; intros i k r j k' Hrun; simpl in Hrun.
  - injection Hrun as <- <- <-. left. split; [reflexivity|simpl; lia].
  - destruct (init s) as [f|] eqn:Hinit.
    + unfold mbind at 1, M_bind at 1 in Hrun.
      unfold mbind at 1, M_bind at 1, emit, modify in Hrun.
      destruct (f (log_event (EvInit i) k)) as [[r1 k1]|] eqn:Hf; [|discriminate].
      destruct (Z.eq_dec r1 0) as [->|Hr1].
      * apply IH in Hrun as [[-> ->]|(Hr & n & s' & f' & k2 & -> & Hn & Hs' & Hf')].
        -- left. split; [reflexivity|simpl; lia].
        -- right. split; [assumption|]. exists (S n), s', f', k2.
           replace (i + S n)%nat with (S i + n)%nat by lia. by repeat split.
      * right. assert ((r, j, k') = (r1, S i, k1)) as Heq.
        { destruct rest; simpl in Hrun.
          - by injection Hrun as <- <- <-.
          - destruct (Z.eqb_spec r1 0); [contradiction|]. by injection Hrun as <- <- <-. }
        injection Heq as -> -> ->. split; [assumption|].
        exists 0%nat, s, f, k. rewrite Nat.add_0_r. by repeat split.
    + apply IH in Hrun as [[-> ->]|(Hr & n & s' & f' & k2 & -> & Hn & Hs' & Hf')].
      * left. split; [reflexivity|simpl; lia].
      * right. split; [assumption|]. exists (S n), s', f', k2.
        replace (i + S n)%nat with (S i + n)%nat by lia. by repeat split.
Qed.

(** X10: [simple_context_init], over any table of stages. If it returns 0,
    the loop went through the whole table and nothing was torn down or
    freed. If it returns an error [r], some stage [n] has an [init] that
    returned [r], no later stage was initialized, and the unwinding that
    follows is [simple_context_term_partial] entered with [i = n + 1], so
    that it begins with the [term] of stage [n] itself, then [kfree(ctx)]. *)
Theorem init_with_outcome table k r k' :
  init_with table k = Some (r, k') ->
  (r = 0 -> init_loop table 0 0 k = Some ((0, length table), k')) /\
  (r <> 0 ->
     exists n s f k1 k2,
       table !! n = Some s /\ init s = Some f /\
       f (log_event (EvInit n) k1) = Some (r, k2) /\
       init_loop table 0 0 k = Some ((r, S n), k2) /\
       (term_partial table (S n);; kfree PCtx) k2 = Some (tt, k')).
Proof.
  unfold init_with. unfold mbind at 1, M_bind at 1.
  destruct (init_loop table 0 0 k) as [[[r0 j] k0]|] eqn:Hloop; [|discriminate].
  pose proof (init_loop_exit table 0 k r0 j k0 Hloop) as Hexit.
  destruct (Z.eqb_spec r0 0) as [->|Hr0].
  - intros [= <- <-]. split; [|done]. intros _.
    destruct Hexit as [[_ ->]|[Hne _]]; [reflexivity|contradiction].
  - intros Hrun. unfold mbind at 1, M_bind at 1 in Hrun.
    destruct (term_partial table j k0) as [[[] k1]|] eqn:Hterm; [|discriminate].
    unfold mbind at 1, M_bind at 1 in Hrun.
    assert (r = r0) as ->.
    { unfold kfree in Hrun. revert Hrun. run. by intros [= <- _]. }
    split; [contradiction|]. intros _.
    destruct Hexit as [[-> _]|(_ & n & s & f & k2 & -> & Hn & Hs & Hf)]; [contradiction|].
    exists n, s, f, k2, k0. simpl in *. repeat (split; [assumption|]).
    split; [reflexivity|].
    unfold mbind at 1, M_bind at 1. rewrite Hterm.
    unfold kfree in Hrun |- *. revert Hrun. run. by intros [= <-].
Qed.

Lemma init_with_outcome_witness :
  init_with (g_ctx_init false) (module_load []) = Some (- ENOMEM, load_failed []) /\
  (- ENOMEM = 0 ->
     init_loop (g_ctx_init false) 0 0 (module_load [])
     = Some ((0, length (g_ctx_init false)), load_failed [])) /\
  (- ENOMEM <> 0 ->
     exists n s f k1 k2,
       g_ctx_init false !! n = Some s /\ init s = Some f /\
       f (log_event (EvInit n) k1) = Some (- ENOMEM, k2) /\
       init_loop (g_ctx_init false) 0 0 (module_load []) = Some ((- ENOMEM, S n), k2) /\
       (term_partial (g_ctx_init false) (S n);; kfree PCtx) k2
       = Some (tt, load_failed [])).
Proof.
  split; [reflexivity|].
  exact (init_with_outcome (g_ctx_init false) (module_load []) (- ENOMEM)
           (load_failed []) eq_refl).
Defined.

(* ===================================================================== *)
(** ** Load and unload *)
(* ===================================================================== *)

Lemma filter_other_names (nodes : list string) :
  "simple"%string ∉ nodes ->
  filter (fun x => x ≠ "simple"%string) (nodes ++ ["simple"%string]) = nodes.
Proof.
  intros Hfree. rewrite filter_app.
  replace (filter (fun x => x ≠ "simple"%string) ["simple"%string]) with (@nil string)
    by reflexivity.
  rewrite app_nil_r. induction nodes as [|x nodes IH]; [reflexivity|].
  apply not_elem_of_cons in Hfree as [Hx Hfree].
  rewrite filter_cons_True by congruence. by rewrite IH.
Qed.

Lemma registers_free nodes : "simple"%string ∉ nodes -> registers true nodes = true.
Proof. intros Hfree. unfold registers. simpl. by apply bool_decide_eq_true_2. Qed.


(** X12: load, serve, unload. When the name is free and procfs takes the
    node, the module loads; whatever calls are then served, unloading
    returns, procfs is back to what it was before the load, no entry is
    left in the slab, and the context was never handed to [kfree]. *)
Theorem load_serve_unload nodes os :
  "simple"%string ∉ nodes ->
  exists k0 rs k k',
    simple_driver_init true (module_load nodes) = Some (0, k0) /\
    run_ops os k0 = Some (rs, k) /\
    simple_driver_exit k = Some (tt, k') /\
    procfs k' = nodes /\
    slab k' = ∅ /\ entry_memory k' = 0 /\
    ctx_freed k' = false.
Proof.
  intros Hfree. rewrite simple_driver_init_spec, (registers_free nodes Hfree).
  destruct (run_ops_total os (loaded nodes) (loaded_inv nodes)) as (rs & k & Hrun).
  pose proof (run_ops_inv _ _ _ _ (loaded_inv nodes) Hrun) as Hk.
  destruct (run_ops_head _ _ _ _ (loaded_inv nodes) Hrun) as (_ & _ & _ & _ & Hproc).
  exists (loaded nodes), rs, k, (unloaded k). split; [reflexivity|].
  split; [assumption|]. split; [by apply simple_context_term_spec|].
  split; [simpl; rewrite Hproc; by apply filter_other_names|].
  split; [reflexivity|]. split; [by apply map_fold_empty_memory|].
  simpl. apply (inv_static k Hk).
Qed.

Lemma load_serve_unload_witness :
  ("simple"%string ∉ ["cpuinfo"%string; "meminfo"%string]) /\
  exists k0 rs k k',
    simple_driver_init true (module_load ["cpuinfo"%string; "meminfo"%string])
    = Some (0, k0) /\
    run_ops two_writes k0 = Some (rs, k) /\
    simple_driver_exit k = Some (tt, k') /\
    procfs k' = ["cpuinfo"%string; "meminfo"%string] /\
    slab k' = ∅ /\ entry_memory k' = 0 /\
    ctx_freed k' = false.
Proof.
  assert ("simple"%string ∉ ["cpuinfo"%string; "meminfo"%string]) as Hfree.
  { intros Hin. repeat (apply elem_of_cons in Hin as [?|Hin]; [done|]).
    by apply not_elem_of_nil in Hin. }
  split; [exact Hfree|].
  exact (load_serve_unload ["cpuinfo"%string; "meminfo"%string] two_writes Hfree).
Defined.

(** X13: [simple_context_buffer_list_term] frees the entries and leaves
    them linked. After the teardown of a log that holds an entry, the list
    is what it was and each of its nodes is freed memory: a second teardown
    would free them again, and a read session would read them; the model
    has no outcome for either. *)
Theorem teardown_leaves_freed_nodes_linked k :
  reachable k ->
  buf_list_head (ctx k) <> [] ->
  exists k',
    simple_context_term k = Some (tt, k') /\
    buf_list_head (ctx k') = buf_list_head (ctx k) /\
    (forall a, a ∈ buf_list_head (ctx k') -> slab k' !! a = None) /\
    simple_context_term k' = None /\
    forall size, seq_read_session size 0 k' = None.
Proof.
  intros Hk%reachable_inv Hne.
  exists (unloaded k). split; [by apply simple_context_term_spec|].
  split; [reflexivity|]. split; [intros a _; apply lookup_empty|].
  destruct (buf_list_head (ctx k)) as [|a l] eqn:Hhead; [contradiction|].
  split.
  - unfold simple_context_term, term_with, g_ctx_init, simple_context_procfs_term,
      simple_context_buffer_list_term, proc_remove.
    simpl. run. rewrite (inv_proc k Hk). run. rewrite Hhead. simpl.
    unfold kfree. run. reflexivity.
  - intros size.
    unfold seq_read_session, simple_context_seq_start, mutex_lock. run.
    rewrite (inv_lock k Hk). run. rewrite Hhead. simpl.
    unfold simple_context_seq_show, load_entry. run. reflexivity.
Qed.

Lemma teardown_leaves_freed_nodes_linked_witness :
  reachable after_two_writes /\
  buf_list_head (ctx after_two_writes) <> [] /\
  exists k',
    simple_context_term after_two_writes = Some (tt, k') /\
    buf_list_head (ctx k') = buf_list_head (ctx after_two_writes) /\
    (forall a, a ∈ buf_list_head (ctx k') -> slab k' !! a = None) /\
    simple_context_term k' = None /\
    forall size, seq_read_session size 0 k' = None.
Proof.
  assert (buf_list_head (ctx after_two_writes) <> []) as Hne by discriminate.
  split; [apply reachable_after_two_writes|]. split; [exact Hne|].
  exact (teardown_leaves_freed_nodes_linked after_two_writes
           reachable_after_two_writes Hne).
Defined.
